(** * PodNodeConstraints admission plugin

    A shallow embedding of
    [pkg/scheduler/admission/podnodeconstraints/admission.go]:
    the resource classifier [shouldAdmitResource], the pod-spec extractor
    [getPodSpec], the evaluator and decision composer [admitPodSpec], the
    authorization gate [checkPodsBindAccess] and the entry point [Admit].

    Go features and how they are rendered here:
    - a pointer that may be nil is an [option]; dereferencing nil is the
      outcome [Panic];
    - [(T, error)] results are pairs whose second component is an
      [option error], [None] being Go's [nil];
    - the client behind [o.client] is an external service: it is a step
      function on an abstract client state, and every call made to it is
      appended to a log, so that "the gate was not invoked" is a statement
      about the log;
    - [for k := range m] over a Go map visits every key once, in an order
      the runtime chooses afresh at each loop: the order is an explicit
      argument [rng] of the functions that range over a map. *)

From stdpp Require Import base strings list gmap sets.

Local Open Scope string_scope.

(** ** Data model *)

(** [unversioned.GroupResource] and [unversioned.GroupKind]. *)
Record GroupResource := mkGroupResource { gr_Group : string; gr_Resource : string }.
Record GroupKind := mkGroupKind { gk_Group : string; gk_Kind : string }.

#[global] Instance GroupResource_eq_dec : EqDecision GroupResource.
Proof. solve_decision. Defined.
#[global] Instance GroupKind_eq_dec : EqDecision GroupKind.
Proof. solve_decision. Defined.

(** [admission.Operation] *)
Inductive Operation := Create | Update | Delete | Connect.

#[global] Instance Operation_eq_dec : EqDecision Operation.
Proof. solve_decision. Defined.

(** The two fields of [kapi.PodSpec] the plugin reads. *)
Record PodSpec := mkPodSpec {
  NodeName : string;
  NodeSelector : gmap string string
}.

(** [kapi.PodSpec{}] *)
Definition emptyPodSpec : PodSpec := mkPodSpec "" ∅.

(** The runtime objects an admission request can carry.  The replication
    controller, the replica set and the deployment config hold their template
    through a pointer ([Spec.Template *kapi.PodTemplateSpec]); the deployment
    and the job hold it by value. *)
Inductive Object :=
| Pod (Spec : PodSpec)
| ReplicationController (Template : option PodSpec)
| Deployment (Template : PodSpec)
| ReplicaSet (Template : option PodSpec)
| Job (Template : PodSpec)
| DeploymentConfig (Template : option PodSpec)
| OtherObject (kind : string)
| NilObject.

(** [user.Info] *)
Record UserInfo := mkUserInfo {
  ui_Name : string;
  ui_UID : string;
  ui_Groups : list string
}.

(** [admission.Attributes], as built by [admission.NewAttributesRecord]. *)
Record Attributes := mkAttributes {
  GetObject : Object;
  GetKind : GroupKind;
  GetNamespace : string;
  GetName : string;
  GetResource : GroupResource;
  GetSubresource : string;
  GetOperation : Operation;
  GetUserInfo : option UserInfo
}.

(** [api.PodNodeConstraintsConfig] *)
Record PodNodeConstraintsConfig := mkConfig {
  NodeSelectorLabelBlacklist : list string
}.

#[global] Instance PodNodeConstraintsConfig_eq_dec : EqDecision PodNodeConstraintsConfig.
Proof. solve_decision. Defined.

(** [authorizationapi.AuthorizationAttributes], [LocalSubjectAccessReview]
    and [SubjectAccessReviewResponse]. *)
Record AuthorizationAttributes := mkAction {
  Verb : string;
  Resource : string;
  ResourceName : string
}.

Record LocalSubjectAccessReview := mkSAR {
  Action : AuthorizationAttributes;
  User : string;
  Groups : gset string
}.

Record SubjectAccessReviewResponse := mkResponse {
  Allowed : bool;
  Reason : string
}.

(** Go [error] values.  [Errorf] is [fmt.Errorf] with its message already
    formatted; [ErrUnexpectedKind] is the one [fmt.Errorf] whose arguments
    are formatted by the [String] methods of the group kind and the group
    resource; [NewInternalError] and [NewForbidden] are the constructors of
    [kapierrors] and [admission]; [ExternalError] is any error made outside
    this package, such as a transport failure of the client. *)
Inductive error :=
| Errorf (msg : string)
| ErrUnexpectedKind (kind : GroupKind) (resource : GroupResource)
| NewInternalError (err : error)
| NewForbidden (attr : Attributes) (err : error)
| ExternalError (msg : string).

(** [kapi.Resource], [extensions.Resource], [deployapi.Resource] and the
    [Kind] counterparts qualify a name with the group of their package. *)
Definition kapi_GroupName : string := "".
Definition extensions_GroupName : string := "extensions".
Definition deployapi_GroupName : string := "".

Definition kapi_Resource (r : string) := mkGroupResource kapi_GroupName r.
Definition kapi_Kind (k : string) := mkGroupKind kapi_GroupName k.
Definition extensions_Resource (r : string) := mkGroupResource extensions_GroupName r.
Definition extensions_Kind (k : string) := mkGroupKind extensions_GroupName k.
Definition deployapi_Resource (r : string) := mkGroupResource deployapi_GroupName r.
Definition deployapi_Kind (k : string) := mkGroupKind deployapi_GroupName k.

(** ** Effects: client state, call log and panics *)

Inductive outcome (A : Type) :=
| Return (a : A)
| Panic.
Arguments Return {A} a.
Arguments Panic {A}.

(** One request sent to the authorization service:
    [client.LocalSubjectAccessReviews(namespace).Create(sar)]. *)
Record Call := mkCall {
  call_namespace : string;
  call_sar : LocalSubjectAccessReview
}.

Section Plugin.

(** The state of the service behind the client, whatever it is. *)
Context {ClientState : Type}.

(** [client.Interface], cut down to the one method the plugin calls. *)
Record client_Interface := mkClient {
  LocalSubjectAccessReviews_Create :
    string -> LocalSubjectAccessReview -> ClientState ->
    (option SubjectAccessReviewResponse * option error) * ClientState
}.

Record World := mkWorld {
  client_state : ClientState;
  calls : list Call
}.

Definition M (A : Type) : Type := World -> outcome A * World.

Definition ret {A} (a : A) : M A := fun w => (Return a, w).
Definition panic {A} : M A := fun w => (Panic, w).
Definition bind {A B} (m : M A) (k : A -> M B) : M B :=
  fun w => match m w with
           | (Return a, w') => k a w'
           | (Panic, w') => (Panic, w')
           end.
Definition lift {A} (x : outcome A) : M A := fun w => (x, w).

Notation "x <- m ;; k" := (bind m (fun x => k))
  (at level 100, m at next level, right associativity).

(** ** The plugin *)

Record podNodeConstraints := mkPlugin {
  Handler : list Operation;
  client : option client_Interface;
  config : option PodNodeConstraintsConfig
}.

Definition NewPodNodeConstraints (config : option PodNodeConstraintsConfig)
  : podNodeConstraints :=
  {| config := config; Handler := [Create; Update]; client := None |}.

Definition SetOpenshiftClient (o : podNodeConstraints) (c : option client_Interface)
  : podNodeConstraints :=
  {| config := config o; Handler := Handler o; client := c |}.

Definition Validate (o : podNodeConstraints) : option error :=
  match client o with
  | None => Some (Errorf "PodNodeConstraints needs an Openshift client")
  | Some _ => None
  end.

(** The Go map literal [resourcesToAdmit]; its six keys are distinct, so the
    first match of the lookup is the only one. *)
Definition resourcesToAdmit : list (GroupResource * GroupKind) :=
  [ (kapi_Resource "pods", kapi_Kind "Pod");
    (kapi_Resource "replicationcontrollers", kapi_Kind "ReplicationController");
    (extensions_Resource "deployments", extensions_Kind "Deployment");
    (extensions_Resource "replicasets", extensions_Kind "ReplicaSet");
    (extensions_Resource "jobs", extensions_Kind "Job");
    (deployapi_Resource "deploymentconfigs", deployapi_Kind "DeploymentConfig") ].

Fixpoint map_index (m : list (GroupResource * GroupKind)) (resource : GroupResource)
  : option GroupKind :=
  match m with
  | [] => None
  | (r, k) :: m' => if decide (r = resource) then Some k else map_index m' resource
  end.

Definition shouldAdmitResource (resource : GroupResource) (kind : GroupKind)
  : bool * option error :=
  match map_index resourcesToAdmit resource with
  | None => (false, None)
  | Some expectedKind =>
      if decide (expectedKind = kind) then (true, None)
      else (false, Some (ErrUnexpectedKind kind resource))
  end.

(** [r.Spec.Template.Spec] through a template pointer. *)
Definition deref_Template (t : option PodSpec) : outcome (PodSpec * option error) :=
  match t with
  | Some ps => Return (ps, None)
  | None => Panic
  end.

Definition getPodSpec (attr : Attributes) : outcome (PodSpec * option error) :=
  match GetObject attr with
  | Pod spec => Return (spec, None)
  | ReplicationController t => deref_Template t
  | Deployment t => Return (t, None)
  | ReplicaSet t => deref_Template t
  | Job t => Return (t, None)
  | DeploymentConfig t => deref_Template t
  | _ => Return (emptyPodSpec,
                 Some (NewInternalError
                         (Errorf "No PodSpec available for supplied admission attribute")))
  end.

(** [sets.NewString(groups...)] *)
Definition sets_NewString (l : list string) : gset string := list_to_set l.

Definition checkPodsBindAccess (o : podNodeConstraints) (attr : Attributes)
  : M (option SubjectAccessReviewResponse * option error) :=
  fun w =>
    match GetUserInfo attr with
    | None => (Panic, w)
    | Some u =>
        let sar := {| Action := {| Verb := "create";
                                   Resource := "pods/binding";
                                   ResourceName := GetName attr |};
                      User := ui_Name u;
                      Groups := sets_NewString (ui_Groups u) |} in
        match client o with
        | None => (Panic, w)
        | Some c =>
            let '(r, s) := LocalSubjectAccessReviews_Create c (GetNamespace attr) sar
                             (client_state w) in
            (Return r,
             {| client_state := s;
                calls := (calls w ++ [mkCall (GetNamespace attr) sar])%list |})
        end
    end.

(** The inner loop: [for _, blacklistLabel := range blacklist], appending the
    entries equal to [nodeSelectorLabel]. *)
Definition matchBlacklist (blacklist : list string) (nodeSelectorLabel : string)
    (matchingLabels : list string) : list string :=
  foldl (fun acc blacklistLabel =>
           if decide (blacklistLabel = nodeSelectorLabel)
           then (acc ++ [blacklistLabel])%list else acc)
        matchingLabels blacklist.

(** The outer loop over the keys of the selector, in the order [keys] in
    which the runtime yields them. *)
Definition matchSelector (blacklist : list string) (keys : list string) : list string :=
  foldl (fun acc nodeSelectorLabel => matchBlacklist blacklist nodeSelectorLabel acc)
        [] keys.

(** The blacklist filter of [admitPodSpec].  [o.config] is dereferenced only
    inside the loop. *)
Definition matchingLabelsOf (o : podNodeConstraints) (ps : PodSpec)
    (rng : gmap string string -> list string) : outcome (list string) :=
  if decide (0 < size (NodeSelector ps)) then
    match config o with
    | None => Panic
    | Some c => Return (matchSelector (NodeSelectorLabelBlacklist c) (rng (NodeSelector ps)))
    end
  else Return [].

(** [fmt]'s [%v] of a [[]string]: the elements, separated by spaces, between
    square brackets. *)
Definition fmt_v (l : list string) : string := "[" ++ String.concat " " l ++ "]".

Definition msgNodeName : string :=
  "node selection by nodeName is prohibited by policy for your role".
Definition msgLabels (matchingLabels : list string) : string :=
  "node selection by label(s) " ++ fmt_v matchingLabels
    ++ " is prohibited by policy for your role".
Definition msgNodeNameAndLabels (matchingLabels : list string) : string :=
  "node selection by nodeName and label(s) " ++ fmt_v matchingLabels
    ++ " is prohibited by policy for your role".

Definition admitPodSpec (o : podNodeConstraints) (attr : Attributes) (ps : PodSpec)
    (rng : gmap string string -> list string) : M (option error) :=
  matchingLabels <- lift (matchingLabelsOf o ps rng) ;;
  if decide (0 < String.length (NodeName ps) ∨ 0 < length matchingLabels) then
    r <- checkPodsBindAccess o attr ;;
    let '(allow, err) := r in
    match err with
    | Some e => ret (Some e)
    | None =>
        match allow with
        | Some a =>
            if Allowed a then ret None
            else if decide (0 < String.length (NodeName ps) ∧ length matchingLabels = 0)
            then ret (Some (NewForbidden attr (Errorf msgNodeName)))
            else if decide (String.length (NodeName ps) = 0 ∧ 0 < length matchingLabels)
            then ret (Some (NewForbidden attr (Errorf (msgLabels matchingLabels))))
            else if decide (0 < String.length (NodeName ps) ∧ 0 < length matchingLabels)
            then ret (Some (NewForbidden attr
                              (Errorf (msgNodeNameAndLabels matchingLabels))))
            else ret None
        | None => ret None
        end
    end
  else ret None.

Definition Admit (o : podNodeConstraints) (attr : Attributes)
    (rng : gmap string string -> list string) : M (option error) :=
  if decide (config o = None ∨ GetSubresource attr ≠ "") then ret None
  else
    let '(shouldAdmit, err) := shouldAdmitResource (GetResource attr) (GetKind attr) in
    match err with
    | Some e => ret (Some e)
    | None =>
        if negb shouldAdmit then ret None
        else if decide (GetResource attr = kapi_Resource "pods"
                        ∧ GetOperation attr ≠ Create)
        then ret None
        else
          r <- lift (getPodSpec attr) ;;
          let '(ps, err) := r in
          match err with
          | None => admitPodSpec o attr ps rng
          | Some e => ret (Some e)
          end
    end.

End Plugin.

(** ** Map iteration *)

(** What Go promises about [for k := range m]: every key, once. *)
Definition valid_range (rng : gmap string string -> list string) : Prop :=
  forall m, rng m ≡ₚ elements (dom m).

(** Two iteration orders: the one of [elements], and its reverse. *)
Definition range_canonical (m : gmap string string) : list string := elements (dom m).
Definition range_reversed (m : gmap string string) : list string :=
  reverse (elements (dom m)).

(** ** Decisions *)

(** What a caller sees of the result of [Admit]: an allow, a policy denial
    with its reason, or another error. *)
Inductive AdmitDecision :=
| Allow
| Deny (reason : error)
| Fail (e : error).

Definition decisionOf (r : option error) : AdmitDecision :=
  match r with
  | None => Allow
  | Some (NewForbidden _ reason) => Deny reason
  | Some e => Fail e
  end.

Definition outcome_map {A B} (f : A -> B) (x : outcome A) : outcome B :=
  match x with
  | Return a => Return (f a)
  | Panic => Panic
  end.

(** The verdict alone: the decision without the reason of a denial. *)
Inductive Verdict :=
| VAllow
| VDeny
| VFail (e : error).

Definition verdictOf (r : option error) : Verdict :=
  match r with
  | None => VAllow
  | Some (NewForbidden _ _) => VDeny
  | Some e => VFail e
  end.

Definition is_forbidden (e : error) : bool :=
  match e with
  | NewForbidden _ _ => true
  | _ => false
  end.



(** The objects [getPodSpec] has a case for. *)
Definition has_workload_shape (obj : Object) : bool :=
  match obj with
  | OtherObject _ | NilObject => false
  | _ => true
  end.

(** A gate whose answer does not depend on the state of the service. *)
Definition stable_gate {ClientState} (c : @client_Interface ClientState) : Prop :=
  forall ns sar s s',
    fst (LocalSubjectAccessReviews_Create c ns sar s)
    = fst (LocalSubjectAccessReviews_Create c ns sar s').

(** ** The evaluator as the specification words it

    "iterate the blacklist in its declared order; for each blacklist key,
    test whether it is present as a key in [spec.nodeSelector]; collect
    matches in blacklist order, skipping duplicates". *)
Definition spec_matchedLabels (blacklist : list string) (sel : gmap string string)
  : list string :=
  foldl (fun acc key =>
           if decide (key ∈ dom sel ∧ key ∉ acc) then (acc ++ [key])%list else acc)
        [] blacklist.

(** ** The fixtures of the unit tests *)

Definition emptyConfig : PodNodeConstraintsConfig := mkConfig [].
Definition testConfig : PodNodeConstraintsConfig := mkConfig ["bogus"].

Definition defaultPod : Object := Pod emptyPodSpec.
Definition nodeNamePod : Object := Pod (mkPodSpec "frank" ∅).
Definition nodeSelectorPod : Object := Pod (mkPodSpec "" {["bogus" := "frank"]}).
Definition nodeNameNodeSelectorPod : Object :=
  Pod (mkPodSpec "frank" {["bogus" := "frank"]}).
Definition resourceQuota : Object := OtherObject "ResourceQuota".

Definition reviewResponse (allowed : bool) (msg : string) : SubjectAccessReviewResponse :=
  {| Allowed := allowed; Reason := msg |}.

Definition fakeClient (expectedResource : string)
    (reviewResponse : option SubjectAccessReviewResponse) : @client_Interface unit :=
  mkClient (fun _ review s =>
    if decide (Resource (Action review) ≠ expectedResource)
    then ((Some (mkResponse false ""),
           Some (ExternalError "unexpected resource received")), s)
    else ((reviewResponse, None), s)).

(** A client whose call fails. *)
Definition failingClient (e : error) : @client_Interface unit :=
  mkClient (fun _ _ s => ((None, Some e), s)).

Definition testUser : UserInfo :=
  {| ui_Name := "herpy"; ui_UID := ""; ui_Groups := ["derpy"] |}.

Definition testPlugin (cfg : option PodNodeConstraintsConfig)
    (c : @client_Interface unit) : podNodeConstraints :=
  SetOpenshiftClient (NewPodNodeConstraints cfg) (Some c).

Definition podAttrs (obj : Object) (op : Operation) : Attributes :=
  mkAttributes obj (kapi_Kind "Pod") "default" "test" (kapi_Resource "pods") "" op
               (Some testUser).

Definition world0 : @World unit := mkWorld tt [].

(** The world after the one call the plugin makes for [podAttrs]. *)
Definition world1 : @World unit :=
  {| client_state := tt;
     calls := [ mkCall "default"
                  {| Action := {| Verb := "create"; Resource := "pods/binding";
                                  ResourceName := "test" |};
                     User := "herpy";
                     Groups := sets_NewString ["derpy"] |} ] |}.

(** The plugin of most unit tests: the test config, and a gate that denies. *)
Definition denyPlugin : podNodeConstraints :=
  testPlugin (Some testConfig) (fakeClient "pods/binding" (Some (reviewResponse false ""))).

(** [deployment(true)] of the unit tests, in a request for it. *)
Definition deploymentAttrs (op : Operation) : Attributes :=
  mkAttributes (Deployment (mkPodSpec "" {["bogus" := "frank"]}))
               (extensions_Kind "Deployment") "default" "test"
               (extensions_Resource "deployments") "" op (Some testUser).

(** A selector with two keys, and a blacklist naming both. *)
Definition twoLabelSelector : gmap string string :=
  <["bogus" := "frank"]> {["a" := "1"]}.
Definition twoLabelConfig : PodNodeConstraintsConfig := mkConfig ["bogus"; "a"].

(** ** The case table of the composer

    The reason of a denial, by the table of the specification: nodeName
    alone, labels alone, or both. *)
Definition denialReason (ps : PodSpec) (matchingLabels : list string) : string :=
  if decide (0 < String.length (NodeName ps) ∧ length matchingLabels = 0)
  then msgNodeName
  else if decide (String.length (NodeName ps) = 0 ∧ 0 < length matchingLabels)
  then msgLabels matchingLabels
  else msgNodeNameAndLabels matchingLabels.

(** ** Reading the configuration and building the plugin *)

(** The [io.Reader] handed to [readConfig], by what [reader == nil] and
    [reflect.ValueOf(reader).IsNil()] can tell about it: the nil interface, a
    nil pointer of some reader type, a reader whose dynamic type is not one
    [IsNil] accepts (a struct, say: [IsNil] panics), and a reader behind a
    pointer. *)
Inductive Reader :=
| NilInterfaceReader
| NilPointerReader
| StructReader (content : string)
| PointerReader (content : string).

(** The [runtime.Object] that [configlatest.ReadYAML] decodes: a
    [*api.PodNodeConstraintsConfig], nil pointer included, or an object of
    another type, known by its [%#v] rendering. *)
Inductive ConfigObject :=
| ConfigPointer (c : option PodNodeConstraintsConfig)
| OtherConfigObject (gosyntax : string).

Section Configuration.

(** [configlatest.ReadYAML], a function of another package. *)
Variable ReadYAML : Reader -> option ConfigObject * option error.

Definition readConfig (reader : Reader)
  : outcome (option PodNodeConstraintsConfig * option error) :=
  match reader with
  | NilInterfaceReader => Return (None, None)
  | NilPointerReader => Return (None, None)
  | StructReader _ => Panic
  | PointerReader _ =>
      let '(obj, err) := ReadYAML reader in
      match err with
      | Some e => Return (None, Some e)
      | None =>
          match obj with
          | None => Return (None, None)
          | Some (ConfigPointer config) => Return (config, None)
          | Some (OtherConfigObject v) =>
              Return (None, Some (Errorf ("unexpected config object: " ++ v)))
          end
      end
  end.

(** The function [init] registers under the name PodNodeConstraints. *)
Definition RegisterPlugin_factory {ClientState} (config : Reader)
  : outcome (option (@podNodeConstraints ClientState) * option error) :=
  match readConfig config with
  | Panic => Panic
  | Return (pluginConfig, err) =>
      match err with
      | Some e => Return (None, Some e)
      | None => Return (Some (NewPodNodeConstraints pluginConfig), None)
      end
  end.

End Configuration.

(** ** The other revision of the plugin

    The source tree holds a second revision of [admission.go], which handles
    Create only and does not look at the declared kind.  Its
    [getPodSpec], [checkPodsBindAccess], [SetOpenshiftClient] and [Validate]
    are those above; its [NewPodNodeConstraints], [readConfig], [Admit] and
    [admitPodSpec] differ and are embedded here. *)
Module Legacy.
Section LegacyPlugin.

Context {ClientState : Type}.

Definition NewPodNodeConstraints (config : option PodNodeConstraintsConfig)
  : @podNodeConstraints ClientState :=
  {| config := config; Handler := [Create]; client := None |}.

Definition readConfig (ReadYAML : Reader -> option ConfigObject * option error)
    (reader : Reader) : outcome (option PodNodeConstraintsConfig * option error) :=
  match reader with
  | NilInterfaceReader => Return (Some (mkConfig []), None)
  | NilPointerReader => Return (Some (mkConfig []), None)
  | StructReader _ => Panic
  | PointerReader _ =>
      let '(obj, err) := ReadYAML reader in
      match err with
      | Some e => Return (None, Some e)
      | None =>
          match obj with
          | None => Return (None, None)
          | Some (ConfigPointer config) => Return (config, None)
          | Some (OtherConfigObject v) =>
              Return (None, Some (Errorf ("unexpected config object: " ++ v)))
          end
      end
  end.

(** In this revision the cases of the switch list two expressions each, and
    a case with a list is taken when one of them holds. *)
Definition admitPodSpec (o : @podNodeConstraints ClientState) (attr : Attributes)
    (ps : PodSpec) (rng : gmap string string -> list string) : M (option error) :=
  bind (lift (matchingLabelsOf o ps rng)) (fun lbls =>
  if decide (0 < String.length (NodeName ps) ∨ 0 < length lbls) then
    bind (checkPodsBindAccess o attr) (fun r =>
    let '(allow, err) := r in
    match err with
    | Some e => ret (Some e)
    | None =>
        match allow with
        | Some a =>
            if Allowed a then ret None
            else if decide (0 < String.length (NodeName ps) ∨ length lbls = 0)
            then ret (Some (NewForbidden attr (Errorf msgNodeName)))
            else if decide (String.length (NodeName ps) = 0 ∨ 0 < length lbls)
            then ret (Some (NewForbidden attr (Errorf (msgLabels lbls))))
            else if decide (0 < String.length (NodeName ps) ∨ 0 < length lbls)
            then ret (Some (NewForbidden attr (Errorf (msgNodeNameAndLabels lbls))))
            else ret None
        | None => ret None
        end
    end)
  else ret None).

Definition Admit (o : @podNodeConstraints ClientState) (attr : Attributes)
    (rng : gmap string string -> list string) : M (option error) :=
  if decide (config o = None ∨ GetSubresource attr ≠ "" ∨ GetOperation attr ≠ Create)
  then ret None
  else if decide (GetResource attr ∈
                    [ kapi_Resource "pods";
                      kapi_Resource "replicationcontrollers";
                      extensions_Resource "deployments";
                      extensions_Resource "replicasets";
                      extensions_Resource "jobs";
                      deployapi_Resource "deploymentconfigs" ])
  then
    bind (lift (getPodSpec attr)) (fun r =>
    let '(ps, err) := r in
    match err with
    | None => admitPodSpec o attr ps rng
    | Some e => ret (Some e)
    end)
  else ret None.

End LegacyPlugin.
End Legacy.

(** ** Fixtures for the configuration *)

(** A [ReadYAML] that decodes every reader to the test config. *)
Definition readTestConfig (r : Reader) : option ConfigObject * option error :=
  (Some (ConfigPointer (Some testConfig)), None).

(** The bind-access query the plugin sends for a request of user [u]. *)
Definition bindAccessCall (attr : Attributes) (u : UserInfo) : Call :=
  mkCall (GetNamespace attr)
         {| Action := {| Verb := "create"; Resource := "pods/binding";
                         ResourceName := GetName attr |};
            User := ui_Name u;
            Groups := sets_NewString (ui_Groups u) |}.

(** * Properties *)

(** ** The two loops of the blacklist filter *)

Lemma matchBlacklist_filter (blacklist : list string) (k : string) (acc : list string) :
  matchBlacklist blacklist k acc = (acc ++ filter (fun b => b = k) blacklist)%list.
Proof.
  unfold matchBlacklist. revert acc.
  induction blacklist as [|b bl IH]; intros acc; simpl.
  - by rewrite app_nil_r.
  - rewrite IH, filter_cons. destruct (decide (b = k)); [|done].
    by rewrite <- app_assoc.
Qed.

Lemma matchSelector_bind (blacklist keys : list string) :
  matchSelector blacklist keys
  = keys ≫= (fun k => filter (fun b => b = k) blacklist).
Proof.
  unfold matchSelector.
  enough (forall acc,
    foldl (fun acc k => matchBlacklist blacklist k acc) acc keys
    = (acc ++ (keys ≫= (fun k => filter (fun b => b = k) blacklist)))%list) as H
    by apply (H []).
  induction keys as [|k ks IH]; intros acc; simpl.
  - by rewrite app_nil_r.
  - rewrite IH, matchBlacklist_filter. by rewrite <- app_assoc.
Qed.

Lemma elem_of_matchSelector (blacklist keys : list string) (x : string) :
  x ∈ matchSelector blacklist keys ↔ x ∈ blacklist ∧ x ∈ keys.
Proof.
  rewrite matchSelector_bind, list_elem_of_bind. split.
  - intros (k & Hx & Hk). apply list_elem_of_filter in Hx as [-> Hx]. done.
  - intros [Hb Hk]. exists x. split; [|done]. by apply list_elem_of_filter.
Qed.

Lemma filter_disjoint_app (P Q : string -> Prop)
    `{!forall x, Decision (P x)} `{!forall x, Decision (Q x)} (l : list string) :
  (forall x, P x -> Q x -> False) ->
  (filter P l ++ filter Q l)%list ≡ₚ filter (fun x => P x ∨ Q x) l.
Proof.
  intros Hdisj. induction l as [|a l IH]; [done|].
  rewrite !filter_cons.
  destruct (decide (P a)) as [Hp|Hp], (decide (Q a)) as [Hq|Hq].
  - destruct (Hdisj a Hp Hq).
  - rewrite decide_True by auto. simpl. by rewrite IH.
  - rewrite decide_True by auto. rewrite <- Permutation_middle. by rewrite IH.
  - rewrite decide_False by tauto. done.
Qed.

Lemma bind_filter_perm (blacklist keys : list string) :
  NoDup keys ->
  keys ≫= (fun k => filter (fun b => b = k) blacklist)
  ≡ₚ filter (fun b => b ∈ keys) blacklist.
Proof.
  induction 1 as [|k ks Hk Hnd IH]; simpl.
  - induction blacklist as [|b bl IHb]; [done|].
    rewrite filter_cons, decide_False by apply not_elem_of_nil. done.
  - rewrite IH, filter_disjoint_app by (intros x -> ?; done).
    erewrite list_filter_iff; [done|]. intros x. by rewrite elem_of_cons.
Qed.

Lemma matchSelector_perm (blacklist : list string) (sel : gmap string string)
    (rng : gmap string string -> list string) :
  valid_range rng ->
  matchSelector blacklist (rng sel) ≡ₚ filter (fun b => b ∈ dom sel) blacklist.
Proof.
  intros Hrng. rewrite matchSelector_bind, (Hrng sel).
  rewrite bind_filter_perm by apply NoDup_elements.
  erewrite list_filter_iff; [done|]. intros x. by rewrite elem_of_elements.
Qed.

Lemma range_canonical_valid : valid_range range_canonical.
Proof. intros m. reflexivity. Qed.

Lemma range_reversed_valid : valid_range range_reversed.
Proof. intros m. apply reverse_Permutation. Qed.

(** ** The classifier *)

Lemma map_index_None (m : list (GroupResource * GroupKind)) (r : GroupResource) :
  map_index m r = None ↔ r ∉ m.*1.
Proof.
  induction m as [|[r' k] m IH]; simpl.
  - split; [intros _; apply not_elem_of_nil | done].
  - rewrite not_elem_of_cons. destruct (decide (r' = r)) as [->|Hne].
    + split; [done | intros [? _]; done].
    + rewrite IH. split; [intros ?; split; [congruence | done] | intros [_ ?]; done].
Qed.

Lemma shouldAdmitResource_unrecognized (r : GroupResource) (k : GroupKind) :
  r ∉ resourcesToAdmit.*1 -> shouldAdmitResource r k = (false, None).
Proof.
  intros Hr. unfold shouldAdmitResource.
  by rewrite (proj2 (map_index_None resourcesToAdmit r) Hr).
Qed.

Lemma shouldAdmitResource_mismatch (r : GroupResource) (k expected : GroupKind) :
  map_index resourcesToAdmit r = Some expected -> expected ≠ k ->
  shouldAdmitResource r k = (false, Some (ErrUnexpectedKind k r)).
Proof.
  intros Hr Hk. unfold shouldAdmitResource. rewrite Hr. by rewrite decide_False.
Qed.

Lemma shouldAdmitResource_cases (r : GroupResource) (k : GroupKind) :
  shouldAdmitResource r k = (false, None)
  ∨ shouldAdmitResource r k = (true, None)
  ∨ shouldAdmitResource r k = (false, Some (ErrUnexpectedKind k r)).
Proof.
  unfold shouldAdmitResource.
  destruct (map_index resourcesToAdmit r); [case_decide|]; auto.
Qed.

(** ** The gate *)

(** A call that returns has grown the log by one entry. *)
Lemma checkPodsBindAccess_calls {ClientState} (o : @podNodeConstraints ClientState)
    (attr : Attributes) (w w' : World)
    (r : option SubjectAccessReviewResponse * option error) :
  checkPodsBindAccess o attr w = (Return r, w') ->
  length (calls w') = S (length (calls w)).
Proof.
  unfold checkPodsBindAccess. intros H.
  destruct (GetUserInfo attr); [|done]. destruct (client o); [|done].
  destruct (LocalSubjectAccessReviews_Create _ _ _ _) as [r' s].
  injection H as _ <-. simpl. rewrite length_app. simpl. lia.
Qed.

(** A call that panics leaves the world as it was. *)
Lemma checkPodsBindAccess_panic {ClientState} (o : @podNodeConstraints ClientState)
    (attr : Attributes) (w w' : World) :
  checkPodsBindAccess o attr w = (Panic, w') -> w' = w.
Proof.
  unfold checkPodsBindAccess. intros H.
  destruct (GetUserInfo attr); [|by injection H].
  destruct (client o); [|by injection H].
  by destruct (LocalSubjectAccessReviews_Create _ _ _ _).
Qed.

(** ** The evaluator and the composer, case by case *)

Lemma admitPodSpec_no_auth {ClientState} (o : @podNodeConstraints ClientState)
    (attr : Attributes) (ps : PodSpec) rng (w : World) :
  matchingLabelsOf o ps rng = Return [] -> NodeName ps = "" ->
  admitPodSpec o attr ps rng w = (Return None, w).
Proof.
  intros Hl Hn. unfold admitPodSpec, bind, lift. rewrite Hl, Hn.
  case_decide as H; [|done]. simpl in H. lia.
Qed.

Lemma admitPodSpec_auth {ClientState} (o : @podNodeConstraints ClientState)
    (attr : Attributes) (ps : PodSpec) rng (w : World) (labels : list string) :
  matchingLabelsOf o ps rng = Return labels ->
  0 < String.length (NodeName ps) ∨ 0 < length labels ->
  admitPodSpec o attr ps rng w =
  match checkPodsBindAccess o attr w with
  | (Return (_, Some e), w') => (Return (Some e), w')
  | (Return (Some a, None), w') =>
      if Allowed a then (Return None, w')
      else (Return (Some (NewForbidden attr (Errorf (denialReason ps labels)))), w')
  | (Return (None, None), w') => (Return None, w')
  | (Panic, w') => (Panic, w')
  end.
Proof.
  intros Hl Hauth. unfold admitPodSpec, bind, lift. rewrite Hl.
  rewrite decide_True by done.
  destruct (checkPodsBindAccess o attr w) as [[[[a|] [e|]]|] w']; try done.
  unfold ret, denialReason. destruct (Allowed a); [done|].
  repeat case_decide; try done. lia.
Qed.

(** Either [admitPodSpec] leaves the world alone, or it has gone through the
    gate, whose call returned. *)
Lemma admitPodSpec_world {ClientState} (o : @podNodeConstraints ClientState)
    (attr : Attributes) (ps : PodSpec) rng (w : World) :
  snd (admitPodSpec o attr ps rng w) = w
  ∨ exists labels r w',
      matchingLabelsOf o ps rng = Return labels
      ∧ (0 < String.length (NodeName ps) ∨ 0 < length labels)
      ∧ checkPodsBindAccess o attr w = (Return r, w')
      ∧ snd (admitPodSpec o attr ps rng w) = w'.
Proof.
  destruct (matchingLabelsOf o ps rng) as [labels|] eqn:Hl.
  - destruct (decide (0 < String.length (NodeName ps) ∨ 0 < length labels)) as [Ha|Ha].
    + rewrite (admitPodSpec_auth o attr ps rng w labels Hl Ha).
      destruct (checkPodsBindAccess o attr w) as [[r|] w'] eqn:Hc.
      * right. exists labels, r, w'. repeat split; try done.
        destruct r as [[a|] [e|]]; try done. by destruct (Allowed a).
      * left. simpl. by apply checkPodsBindAccess_panic in Hc.
    + left. unfold admitPodSpec, bind, lift. rewrite Hl. by rewrite decide_False.
  - left. unfold admitPodSpec, bind, lift. by rewrite Hl.
Qed.

(** ** The entry point, case by case *)

(** A request that passes every bypass and the classifier is evaluated on the
    pod spec the extractor returns. *)
Lemma Admit_evaluated {ClientState} (o : @podNodeConstraints ClientState)
    (attr : Attributes) rng (w : World) :
  config o ≠ None -> GetSubresource attr = "" ->
  shouldAdmitResource (GetResource attr) (GetKind attr) = (true, None) ->
  ¬ (GetResource attr = kapi_Resource "pods" ∧ GetOperation attr ≠ Create) ->
  Admit o attr rng w =
  match getPodSpec attr with
  | Return (ps, None) => admitPodSpec o attr ps rng w
  | Return (_, Some e) => (Return (Some e), w)
  | Panic => (Panic, w)
  end.
Proof.
  intros Hc Hs Hk Hop. unfold Admit.
  rewrite decide_False by (intros [?|?]; done).
  rewrite Hk. cbn [negb]. rewrite decide_False by done.
  unfold bind, lift. by destruct (getPodSpec attr) as [[ps [e|]]|].
Qed.

(** Either [Admit] leaves the world alone, or the request was evaluated and
    the world is the one [admitPodSpec] leaves. *)
Lemma Admit_world {ClientState} (o : @podNodeConstraints ClientState)
    (attr : Attributes) rng (w : World) :
  snd (Admit o attr rng w) = w
  ∨ exists ps,
      getPodSpec attr = Return (ps, None)
      ∧ Admit o attr rng w = admitPodSpec o attr ps rng w.
Proof.
  unfold Admit. case_decide as Hb; [by left|].
  destruct (shouldAdmitResource_cases (GetResource attr) (GetKind attr))
    as [Hk|[Hk|Hk]]; rewrite Hk; cbn [negb]; try by left.
  case_decide; [by left|]. unfold bind, lift.
  destruct (getPodSpec attr) as [[ps [e|]]|]; try by left.
  right. by exists ps.
Qed.

(** When the log has grown, the request went through the gate. *)
Lemma Admit_gate_reached {ClientState} (o : @podNodeConstraints ClientState)
    (attr : Attributes) rng (w : World) :
  calls (snd (Admit o attr rng w)) ≠ calls w ->
  exists ps labels,
    getPodSpec attr = Return (ps, None)
    ∧ matchingLabelsOf o ps rng = Return labels
    ∧ (0 < String.length (NodeName ps) ∨ 0 < length labels)
    ∧ Admit o attr rng w = admitPodSpec o attr ps rng w.
Proof.
  intros Hcalls. destruct (Admit_world o attr rng w) as [Hw|(ps & Hps & HA)].
  - by rewrite Hw in Hcalls.
  - rewrite HA in Hcalls.
    destruct (admitPodSpec_world o attr ps rng w) as [Hw|(labels & r & w' & ? & ? & ? & ?)].
    + by rewrite Hw in Hcalls.
    + by exists ps, labels.
Qed.

Lemma Admit_nil_config {ClientState} (o : @podNodeConstraints ClientState)
    (attr : Attributes) rng (w : World) :
  config o = None -> Admit o attr rng w = (Return None, w).
Proof. intros Hc. unfold Admit. rewrite decide_True; [done | by left]. Qed.

Lemma string_length_0 (s : string) : String.length s = 0 ↔ s = "".
Proof. by destruct s. Qed.

Lemma list_length_0 {A} (l : list A) : length l = 0 ↔ l = [].
Proof. by destruct l. Qed.

Lemma string_length_pos (s : string) : 0 < String.length s ↔ s ≠ "".
Proof. destruct s; simpl; [split; [lia | done] | split; [done | lia]]. Qed.

Lemma list_length_pos {A} (l : list A) : 0 < length l ↔ l ≠ [].
Proof. destruct l; simpl; [split; [lia | done] | split; [done | lia]]. Qed.

(** [denialReason] read as the case table. *)
Lemma denialReason_table (ps : PodSpec) (labels : list string) :
  NodeName ps ≠ "" ∨ labels ≠ [] ->
  (NodeName ps ≠ "" ∧ labels = [] ∧ denialReason ps labels = msgNodeName)
  ∨ (NodeName ps = "" ∧ labels ≠ [] ∧ denialReason ps labels = msgLabels labels)
  ∨ (NodeName ps ≠ "" ∧ labels ≠ []
     ∧ denialReason ps labels = msgNodeNameAndLabels labels).
Proof.
  intros Hreq. unfold denialReason.
  rewrite <- !string_length_pos, <- !list_length_pos in *.
  rewrite <- string_length_0, <- (list_length_0 labels).
  repeat case_decide; [left | right; left | right; right]; repeat split; try done; lia.
Qed.

(** * The claims *)

(** C6. A request is bypassed, that is [Admit] returns nil and makes no call
    to the authorization gate (the world, log included, is unchanged), as
    soon as the config is nil, or the subresource is not empty, or the
    resource is not one of the six keys of [resourcesToAdmit]. *)
Theorem C6_bypass {ClientState} (o : @podNodeConstraints ClientState)
    (attr : Attributes) rng (w : World) :
  config o = None ∨ GetSubresource attr ≠ ""
    ∨ GetResource attr ∉ resourcesToAdmit.*1 ->
  Admit o attr rng w = (Return None, w).
Proof.
  intros H. unfold Admit. case_decide as Hb; [done|].
  destruct H as [H|[H|H]]; [destruct Hb; auto..|].
  by rewrite (shouldAdmitResource_unrecognized _ _ H).
Qed.

(** The resource-quota request of the unit tests, and a pod request on a
    subresource. *)
Lemma C6_bypass_witness :
  Admit (testPlugin (Some testConfig) (fakeClient "pods/binding" (Some (reviewResponse false ""))))
        (mkAttributes resourceQuota (kapi_Kind "ResourceQuota") "default" "test"
           (kapi_Resource "resourcequotas") "" Create (Some testUser))
        range_canonical world0
  = (Return None, world0).
Proof.
  apply C6_bypass. right. right. cbn.
  intros H. repeat (apply elem_of_cons in H as [H|H]; [discriminate H|]).
  by apply not_elem_of_nil in H.
Defined.

(** C9. When the pod spec has an empty nodeName and no key of its selector is
    in the blacklist, [Admit] makes no call to the gate, whatever the rest of
    the request; and it returns nil unless the classifier has rejected the
    declared kind. *)
Theorem C9_no_constraint_no_gate {ClientState} (o : @podNodeConstraints ClientState)
    (attr : Attributes) rng (w : World) (ps : PodSpec) :
  valid_range rng ->
  getPodSpec attr = Return (ps, None) ->
  NodeName ps = "" ->
  (forall c k, config o = Some c -> k ∈ dom (NodeSelector ps) ->
               k ∉ NodeSelectorLabelBlacklist c) ->
  snd (Admit o attr rng w) = w
  ∧ (snd (shouldAdmitResource (GetResource attr) (GetKind attr)) = None ->
     Admit o attr rng w = (Return None, w)).
Proof.
  intros Hrng Hps Hn Hbl.
  assert (config o ≠ None -> matchingLabelsOf o ps rng = Return []) as Hl.
  { intros Hc. unfold matchingLabelsOf. case_decide; [|done].
    destruct (config o) as [c|] eqn:Ec; [|done]. f_equal.
    apply elem_of_nil_inv. intros x Hx.
    apply elem_of_matchSelector in Hx as [Hx1 Hx2].
    rewrite (Hrng (NodeSelector ps)), elem_of_elements in Hx2.
    by apply (Hbl c x). }
  unfold Admit. case_decide as Hb; [done|].
  destruct (shouldAdmitResource_cases (GetResource attr) (GetKind attr))
    as [Hk|[Hk|Hk]]; rewrite Hk; cbn [negb snd]; try done.
  case_decide; [done|]. unfold bind, lift. rewrite Hps.
  rewrite admitPodSpec_no_auth; [done| |done].
  apply Hl. intros Hc. apply Hb. by left.
Qed.

(** Unit test 0 (default pod, empty config) and the pod whose empty selector
    cannot match the blacklist. *)
Lemma C9_no_constraint_no_gate_witness :
  Admit (testPlugin (Some testConfig) (fakeClient "pods/binding" (Some (reviewResponse false ""))))
        (podAttrs (Pod (mkPodSpec "" {["region" := "east"]})) Create)
        range_canonical world0
  = (Return None, world0).
Proof.
  refine (proj2 (C9_no_constraint_no_gate
                   (testPlugin (Some testConfig)
                      (fakeClient "pods/binding" (Some (reviewResponse false ""))))
                   (podAttrs (Pod (mkPodSpec "" {["region" := "east"]})) Create)
                   range_canonical world0 (mkPodSpec "" {["region" := "east"]})
                   range_canonical_valid eq_refl eq_refl _) eq_refl).
  intros c k Hc Hk. injection Hc as <-. cbn in *.
  rewrite dom_singleton_L, elem_of_singleton in Hk. subst k.
  intros H. apply list_elem_of_singleton in H. discriminate H.
Defined.

(** C1, as stated, fails on the code: with a config whose blacklist is empty,
    a pod that names its node still goes through the gate, and is denied when
    the gate says so. *)
Lemma C1_empty_blacklist_counterexample :
  NodeSelectorLabelBlacklist emptyConfig = []
  ∧ Admit (testPlugin (Some emptyConfig)
             (fakeClient "pods/binding" (Some (reviewResponse false ""))))
          (podAttrs nodeNamePod Create) range_canonical world0
    = (Return (Some (NewForbidden (podAttrs nodeNamePod Create)
                       (Errorf "node selection by nodeName is prohibited by policy for your role"))),
       world1).
Proof. split; reflexivity. Qed.

(** C1, amended.  With a nil config [Admit] returns nil and makes no call to
    the gate, for every request.  With an empty blacklist no label ever
    matches, and [Admit] returns nil without a call to the gate for every
    selector as long as the nodeName is empty (for a request whose declared
    kind the classifier accepts). *)
Theorem C1_disabled_or_empty_blacklist {ClientState}
    (o : @podNodeConstraints ClientState) (attr : Attributes) rng (w : World) :
  (config o = None -> Admit o attr rng w = (Return None, w))
  ∧ (forall c ps,
       config o = Some c -> NodeSelectorLabelBlacklist c = [] ->
       matchingLabelsOf o ps rng = Return []
       ∧ (getPodSpec attr = Return (ps, None) -> NodeName ps = "" ->
          snd (shouldAdmitResource (GetResource attr) (GetKind attr)) = None ->
          Admit o attr rng w = (Return None, w))).
Proof.
  split.
  - apply Admit_nil_config.
  - intros c ps Hc Hbl.
    assert (matchingLabelsOf o ps rng = Return []) as Hl.
    { unfold matchingLabelsOf. rewrite Hc, Hbl. case_decide; [|done].
      f_equal. rewrite matchSelector_bind.
      induction (rng (NodeSelector ps)) as [|k ks IH]; [done|]. by simpl. }
    split; [done|]. intros Hps Hn Hk.
    unfold Admit. case_decide as Hb; [done|].
    destruct (shouldAdmitResource_cases (GetResource attr) (GetKind attr))
      as [Hk'|[Hk'|Hk']]; rewrite Hk' in Hk |- *; cbn [negb snd] in *; try done.
    case_decide; [done|]. unfold bind, lift. rewrite Hps.
    by apply admitPodSpec_no_auth.
Qed.

(** Unit tests 6 (nil config) and 0 (empty config, default pod), the latter
    with a selector added. *)
Lemma C1_disabled_or_empty_blacklist_witness :
  Admit (testPlugin None (fakeClient "pods/binding" (Some (reviewResponse false ""))))
        (podAttrs nodeNameNodeSelectorPod Create) range_canonical world0
  = (Return None, world0)
  ∧ Admit (testPlugin (Some emptyConfig)
             (fakeClient "pods/binding" (Some (reviewResponse false ""))))
          (podAttrs nodeSelectorPod Create) range_canonical world0
    = (Return None, world0).
Proof.
  split.
  - exact (proj1 (C1_disabled_or_empty_blacklist
                    (testPlugin None
                       (fakeClient "pods/binding" (Some (reviewResponse false ""))))
                    (podAttrs nodeNameNodeSelectorPod Create) range_canonical world0)
                 eq_refl).
  - exact (proj2 (proj2 (C1_disabled_or_empty_blacklist
                    (testPlugin (Some emptyConfig)
                       (fakeClient "pods/binding" (Some (reviewResponse false ""))))
                    (podAttrs nodeSelectorPod Create) range_canonical world0)
                   emptyConfig (mkPodSpec "" {["bogus" := "frank"]}) eq_refl eq_refl)
                 eq_refl eq_refl eq_refl).
Defined.




(** C8. When a request reaches the gate (the log of calls grows) and the call
    returns an error, [Admit] returns that very error, whatever response came
    with it: neither nil nor a denial made by the plugin. *)
Theorem C8_gate_error_propagates {ClientState} (o : @podNodeConstraints ClientState)
    (attr : Attributes) rng (w w' : World)
    (resp : option SubjectAccessReviewResponse) (e : error) :
  calls (snd (Admit o attr rng w)) ≠ calls w ->
  checkPodsBindAccess o attr w = (Return (resp, Some e), w') ->
  Admit o attr rng w = (Return (Some e), w').
Proof.
  intros Hreach Hgate.
  destruct (Admit_gate_reached o attr rng w Hreach) as (ps & labels & _ & Hl & Ha & ->).
  rewrite (admitPodSpec_auth o attr ps rng w labels Hl Ha), Hgate.
  by destruct resp.
Qed.

Lemma C8_gate_error_propagates_witness :
  Admit (testPlugin (Some testConfig) (failingClient (ExternalError "connection refused")))
        (podAttrs nodeNamePod Create) range_canonical world0
  = (Return (Some (ExternalError "connection refused")),
     world1).
Proof.
  refine (C8_gate_error_propagates
            (testPlugin (Some testConfig) (failingClient (ExternalError "connection refused")))
            (podAttrs nodeNamePod Create) range_canonical world0 _ None _ _ eq_refl).
  vm_compute. discriminate.
Defined.

(** C10. When a request reaches the gate and the call returns a nil response
    with a nil error, [Admit] returns nil: no denial and no error, although
    authorization was required. *)
Theorem C10_nil_response_allows {ClientState} (o : @podNodeConstraints ClientState)
    (attr : Attributes) rng (w w' : World) :
  calls (snd (Admit o attr rng w)) ≠ calls w ->
  checkPodsBindAccess o attr w = (Return (None, None), w') ->
  Admit o attr rng w = (Return None, w')
  ∧ exists ps labels,
      getPodSpec attr = Return (ps, None)
      ∧ matchingLabelsOf o ps rng = Return labels
      ∧ (NodeName ps ≠ "" ∨ labels ≠ []).
Proof.
  intros Hreach Hgate.
  destruct (Admit_gate_reached o attr rng w Hreach) as (ps & labels & Hps & Hl & Ha & ->).
  rewrite (admitPodSpec_auth o attr ps rng w labels Hl Ha), Hgate.
  split; [done|]. exists ps, labels. repeat split; try done.
  destruct Ha as [Ha|Ha]; [left|right]; intros Heq; rewrite Heq in Ha; simpl in Ha; lia.
Qed.

Lemma C10_nil_response_allows_witness :
  Admit (testPlugin (Some testConfig) (fakeClient "pods/binding" None))
        (podAttrs nodeNameNodeSelectorPod Create) range_canonical world0
  = (Return None,
     world1).
Proof.
  refine (proj1 (C10_nil_response_allows
                   (testPlugin (Some testConfig) (fakeClient "pods/binding" None))
                   (podAttrs nodeNameNodeSelectorPod Create) range_canonical world0 _
                   _ eq_refl)).
  vm_compute. discriminate.
Defined.

(** C3. Authorization being required (nodeName not empty, or some label
    matched) and the gate having answered with a response and no error:
    if the response allows, the decision is nil; if it does not, the decision
    is a forbidden error whose reason is the one the case table selects, and
    exactly one of the three cases of the table holds.  A request that went
    through the gate gets this decision from [Admit]. *)
Theorem C3_decision_composer {ClientState} (o : @podNodeConstraints ClientState)
    (attr : Attributes) (ps : PodSpec) rng (w w' : World)
    (labels : list string) (resp : SubjectAccessReviewResponse) :
  matchingLabelsOf o ps rng = Return labels ->
  NodeName ps ≠ "" ∨ labels ≠ [] ->
  checkPodsBindAccess o attr w = (Return (Some resp, None), w') ->
  (Allowed resp = true -> admitPodSpec o attr ps rng w = (Return None, w'))
  ∧ (Allowed resp = false ->
     exists reason,
       admitPodSpec o attr ps rng w
       = (Return (Some (NewForbidden attr (Errorf reason))), w')
       ∧ ((NodeName ps ≠ "" ∧ labels = []
           ∧ reason = "node selection by nodeName is prohibited by policy for your role")
          ∨ (NodeName ps = "" ∧ labels ≠ []
             ∧ reason = "node selection by label(s) " ++ fmt_v labels
                        ++ " is prohibited by policy for your role")
          ∨ (NodeName ps ≠ "" ∧ labels ≠ []
             ∧ reason = "node selection by nodeName and label(s) " ++ fmt_v labels
                        ++ " is prohibited by policy for your role")))
  ∧ (((NodeName ps ≠ "" ∧ labels = [])
      ∧ ¬ (NodeName ps = "" ∧ labels ≠ []) ∧ ¬ (NodeName ps ≠ "" ∧ labels ≠ []))
     ∨ (¬ (NodeName ps ≠ "" ∧ labels = [])
        ∧ (NodeName ps = "" ∧ labels ≠ []) ∧ ¬ (NodeName ps ≠ "" ∧ labels ≠ []))
     ∨ (¬ (NodeName ps ≠ "" ∧ labels = [])
        ∧ ¬ (NodeName ps = "" ∧ labels ≠ []) ∧ (NodeName ps ≠ "" ∧ labels ≠ [])))
  ∧ (getPodSpec attr = Return (ps, None) ->
     calls (snd (Admit o attr rng w)) ≠ calls w ->
     Admit o attr rng w = admitPodSpec o attr ps rng w).
Proof.
  intros Hl Hreq Hgate.
  assert (0 < String.length (NodeName ps) ∨ 0 < length labels) as Ha.
  { destruct Hreq as [H|H]; [left|right].
    - destruct (NodeName ps); [done | simpl; lia].
    - destruct labels; [done | simpl; lia]. }
  assert (getPodSpec attr = Return (ps, None) ->
          calls (snd (Admit o attr rng w)) ≠ calls w ->
          Admit o attr rng w = admitPodSpec o attr ps rng w) as HAdmit.
  { intros Hps Hreach.
    destruct (Admit_gate_reached o attr rng w Hreach) as (ps' & labels' & Hps' & _ & _ & ->).
    congruence. }
  rewrite (admitPodSpec_auth o attr ps rng w labels Hl Ha), Hgate in *.
  split; [by intros ->|]. split; [|split; [|done]].
  - intros ->. exists (denialReason ps labels). split; [done|].
    apply (denialReason_table ps labels Hreq).
  - destruct (decide (NodeName ps = "")) as [Hn|Hn], (decide (labels = [])) as [Hb|Hb].
    + destruct Hreq; done.
    + right; left. tauto.
    + left. tauto.
    + right; right. tauto.
Qed.

(** Unit test 3: node name and blacklisted label, and a gate that denies. *)
Lemma C3_decision_composer_witness :
  exists reason,
    admitPodSpec denyPlugin (podAttrs nodeNameNodeSelectorPod Create)
      (mkPodSpec "frank" {["bogus" := "frank"]}) range_canonical world0
    = (Return (Some (NewForbidden (podAttrs nodeNameNodeSelectorPod Create)
                       (Errorf reason))),
       world1)
    ∧ reason = "node selection by nodeName and label(s) [bogus] is prohibited by policy for your role".
Proof.
  destruct (C3_decision_composer denyPlugin (podAttrs nodeNameNodeSelectorPod Create)
              (mkPodSpec "frank" {["bogus" := "frank"]})
              range_canonical world0 world1 ["bogus"] (reviewResponse false ""))
    as (_ & Hdeny & _).
  - vm_compute. reflexivity.
  - left. discriminate.
  - vm_compute. reflexivity.
  - destruct (Hdeny eq_refl) as (reason & Hres & Hcase).
    exists reason. split; [exact Hres|].
    destruct Hcase as [(_ & H & _)|[(H & _)|(_ & _ & ->)]];
      [discriminate H..|reflexivity].
Defined.

(** ** The evaluator against the specification's evaluator *)

Lemma elem_of_spec_matchedLabels (blacklist : list string) (sel : gmap string string)
    (x : string) :
  x ∈ spec_matchedLabels blacklist sel ↔ x ∈ blacklist ∧ x ∈ dom sel.
Proof.
  unfold spec_matchedLabels.
  enough (forall acc,
    x ∈ foldl (fun acc key =>
                 if decide (key ∈ dom sel ∧ key ∉ acc) then (acc ++ [key])%list else acc)
              acc blacklist
    ↔ x ∈ acc ∨ (x ∈ blacklist ∧ x ∈ dom sel)) as H.
  { rewrite H, elem_of_nil. tauto. }
  induction blacklist as [|b bl IH]; intros acc; simpl.
  - rewrite elem_of_nil. tauto.
  - rewrite IH, elem_of_cons. case_decide as Hb.
    + rewrite elem_of_app, list_elem_of_singleton. destruct Hb as [Hb _].
      split; [intros [[?| ->]|?] | intros [?|[[->|?] ?]]]; tauto.
    + split; [tauto|]. intros [?|[[->|?] ?]]; [tauto| |tauto].
      destruct (decide (b ∈ acc)); tauto.
Qed.

Lemma matchingLabelsOf_Return {ClientState} (o : @podNodeConstraints ClientState)
    (c : PodNodeConstraintsConfig) (ps : PodSpec) rng :
  config o = Some c -> valid_range rng ->
  matchingLabelsOf o ps rng
  = Return (matchSelector (NodeSelectorLabelBlacklist c) (rng (NodeSelector ps))).
Proof.
  intros Hc Hrng. unfold matchingLabelsOf. rewrite Hc. case_decide as Hs; [done|].
  assert (NodeSelector ps = ∅) as Hempty.
  { apply map_size_empty_iff. lia. }
  pose proof (Hrng (NodeSelector ps)) as Hp. rewrite Hempty, dom_empty_L, elements_empty in Hp.
  apply Permutation_nil_r in Hp. by rewrite Hempty, Hp.
Qed.

(** C2, as stated, fails on the code.  The labels come out in the order in
    which the selector is iterated, not in the order of the blacklist; so the
    result changes with the iteration order; and an entry that the blacklist
    repeats is repeated in the result. *)
Lemma C2_matched_labels_counterexample :
  matchingLabelsOf (testPlugin (Some twoLabelConfig) (fakeClient "pods/binding" None))
                   (mkPodSpec "" twoLabelSelector) range_canonical
  = Return ["a"; "bogus"]
  ∧ spec_matchedLabels (NodeSelectorLabelBlacklist twoLabelConfig) twoLabelSelector
    = ["bogus"; "a"]
  ∧ matchingLabelsOf (testPlugin (Some twoLabelConfig) (fakeClient "pods/binding" None))
                     (mkPodSpec "" twoLabelSelector) range_reversed
    = Return ["bogus"; "a"]
  ∧ matchingLabelsOf (testPlugin (Some (mkConfig ["bogus"; "bogus"]))
                        (fakeClient "pods/binding" None))
                     (mkPodSpec "" {["bogus" := "frank"]}) range_canonical
    = Return ["bogus"; "bogus"]
  ∧ spec_matchedLabels ["bogus"; "bogus"] {["bogus" := "frank"]} = ["bogus"].
Proof. repeat split; vm_compute; reflexivity. Qed.

(** C2, amended.  The matched labels are the blacklist entries that are keys
    of the selector, each as often as the blacklist has it: a permutation of
    the blacklist filtered by the selector, grouped by selector key in the
    order in which the selector is iterated.  They are the same labels as
    those of the specification's evaluator, order and repetitions apart. *)
Theorem C2_matched_labels {ClientState} (o : @podNodeConstraints ClientState)
    (c : PodNodeConstraintsConfig) (ps : PodSpec) rng :
  config o = Some c -> valid_range rng ->
  exists labels,
    matchingLabelsOf o ps rng = Return labels
    ∧ labels = rng (NodeSelector ps)
                 ≫= (fun k => filter (fun b => b = k) (NodeSelectorLabelBlacklist c))
    ∧ labels ≡ₚ filter (fun b => b ∈ dom (NodeSelector ps)) (NodeSelectorLabelBlacklist c)
    ∧ (forall x, x ∈ labels
                 ↔ x ∈ spec_matchedLabels (NodeSelectorLabelBlacklist c) (NodeSelector ps)).
Proof.
  intros Hc Hrng. eexists. split; [by apply matchingLabelsOf_Return|].
  split; [apply matchSelector_bind|]. split; [by apply matchSelector_perm|].
  intros x. rewrite elem_of_matchSelector, elem_of_spec_matchedLabels.
  by rewrite (Hrng (NodeSelector ps)), elem_of_elements.
Qed.

Lemma C2_matched_labels_witness :
  exists labels,
    matchingLabelsOf (testPlugin (Some twoLabelConfig) (fakeClient "pods/binding" None))
                     (mkPodSpec "" twoLabelSelector) range_reversed
    = Return labels
    ∧ labels ≡ₚ filter (fun b => b ∈ dom twoLabelSelector) ["bogus"; "a"].
Proof.
  destruct (C2_matched_labels
              (testPlugin (Some twoLabelConfig) (fakeClient "pods/binding" None))
              twoLabelConfig (mkPodSpec "" twoLabelSelector) range_reversed
              eq_refl range_reversed_valid) as (labels & H1 & _ & H2 & _).
  exists labels. split; [exact H1 | exact H2].
Defined.

(** C7, as stated, fails on the code.  A recognized resource with a declared
    kind that is not the expected one is let through when the config is nil
    (the bypass comes first); and an object whose shape is not the one of the
    classified resource, here a deployment sent as a pod, is evaluated like
    any object that has a pod spec, and allowed. *)
Lemma C7_internal_faults_counterexample :
  (map_index resourcesToAdmit (kapi_Resource "pods") = Some (kapi_Kind "Pod")
   ∧ kapi_Kind "Pod" ≠ kapi_Kind "ResourceQuota"
   ∧ Admit (testPlugin None (fakeClient "pods/binding" (Some (reviewResponse false ""))))
           (mkAttributes defaultPod (kapi_Kind "ResourceQuota") "default" "test"
              (kapi_Resource "pods") "" Create (Some testUser))
           range_canonical world0
     = (Return None, world0))
  ∧ Admit denyPlugin (podAttrs (Deployment emptyPodSpec) Create) range_canonical world0
    = (Return None, world0).
Proof. repeat split; vm_compute; (reflexivity || discriminate). Qed.

(** C7, amended.  With a config and an empty subresource: a request for a
    recognized resource whose declared kind is not the expected one gets the
    unexpected-kind error, which is not a forbidden error; and a request that
    is to be evaluated (kind as expected, not an operation other than Create on
    pods) whose object is none of the six workload objects gets an internal
    error, which is not a forbidden error either.  Neither calls the gate. *)
Theorem C7_internal_faults {ClientState} (o : @podNodeConstraints ClientState)
    (attr : Attributes) rng (w : World) :
  config o ≠ None -> GetSubresource attr = "" ->
  (forall expected,
     map_index resourcesToAdmit (GetResource attr) = Some expected ->
     expected ≠ GetKind attr ->
     Admit o attr rng w
     = (Return (Some (ErrUnexpectedKind (GetKind attr) (GetResource attr))), w)
     ∧ is_forbidden (ErrUnexpectedKind (GetKind attr) (GetResource attr)) = false)
  ∧ (map_index resourcesToAdmit (GetResource attr) = Some (GetKind attr) ->
     ¬ (GetResource attr = kapi_Resource "pods" ∧ GetOperation attr ≠ Create) ->
     has_workload_shape (GetObject attr) = false ->
     Admit o attr rng w
     = (Return (Some (NewInternalError
                        (Errorf "No PodSpec available for supplied admission attribute"))),
        w)
     ∧ is_forbidden (NewInternalError
                       (Errorf "No PodSpec available for supplied admission attribute"))
       = false).
Proof.
  intros Hc Hs. split.
  - intros expected Hr Hk. split; [|done]. unfold Admit.
    rewrite decide_False by (intros [?|?]; done).
    by rewrite (shouldAdmitResource_mismatch _ _ _ Hr Hk).
  - intros Hr Hop Hshape. split; [|done].
    rewrite Admit_evaluated; try done.
    + unfold getPodSpec. by destruct (GetObject attr).
    + unfold shouldAdmitResource. rewrite Hr. by rewrite decide_True.
Qed.

(** A pod request declared as a resource quota, and the resource-quota object
    sent as a pod. *)
Lemma C7_internal_faults_witness :
  Admit denyPlugin
        (mkAttributes defaultPod (kapi_Kind "ResourceQuota") "default" "test"
           (kapi_Resource "pods") "" Create (Some testUser))
        range_canonical world0
  = (Return (Some (ErrUnexpectedKind (kapi_Kind "ResourceQuota") (kapi_Resource "pods"))),
     world0)
  ∧ Admit denyPlugin (podAttrs resourceQuota Create) range_canonical world0
    = (Return (Some (NewInternalError
                       (Errorf "No PodSpec available for supplied admission attribute"))),
       world0).
Proof.
  split.
  - refine (proj1 (proj1 (C7_internal_faults denyPlugin
                     (mkAttributes defaultPod (kapi_Kind "ResourceQuota") "default" "test"
                        (kapi_Resource "pods") "" Create (Some testUser))
                     range_canonical world0 _ eq_refl) (kapi_Kind "Pod") eq_refl _));
      discriminate.
  - refine (proj1 (proj2 (C7_internal_faults denyPlugin (podAttrs resourceQuota Create)
                     range_canonical world0 _ eq_refl) eq_refl _ eq_refl)).
    + discriminate.
    + intros [_ H]. by apply H.
Defined.

(** ** Two calls in a row *)

Lemma checkPodsBindAccess_stable {ClientState} (o : @podNodeConstraints ClientState)
    (attr : Attributes) (w1 w2 : World) :
  (forall c, client o = Some c -> stable_gate c) ->
  fst (checkPodsBindAccess o attr w1) = fst (checkPodsBindAccess o attr w2).
Proof.
  intros Hst. unfold checkPodsBindAccess.
  destruct (GetUserInfo attr) as [u|]; [|done].
  destruct (client o) as [c|]; [|done].
  specialize (Hst c eq_refl (GetNamespace attr)
    {| Action := {| Verb := "create"; Resource := "pods/binding";
                    ResourceName := GetName attr |};
       User := ui_Name u; Groups := sets_NewString (ui_Groups u) |}
    (client_state w1) (client_state w2)).
  destruct (LocalSubjectAccessReviews_Create c _ _ (client_state w1)) as [r1 s1].
  destruct (LocalSubjectAccessReviews_Create c _ _ (client_state w2)) as [r2 s2].
  simpl in *. by subst.
Qed.

Lemma Permutation_short {A} (l1 l2 : list A) :
  l1 ≡ₚ l2 -> (length l1 <= 1)%nat -> l1 = l2.
Proof.
  intros Hp Hlen. destruct l1 as [|a [|b l]]; simpl in Hlen; [| |lia].
  - by apply Permutation_nil_l.
  - by apply Permutation_singleton_l.
Qed.

(** Evaluating the same pod spec twice, under two iteration orders and in two
    worlds, with a stable gate: the verdict is the same, and so is the whole
    result when the matched labels come out the same. *)
Lemma admitPodSpec_repeat {ClientState} (o : @podNodeConstraints ClientState)
    (attr : Attributes) (ps : PodSpec) rng1 rng2 (w1 w2 : World) (l1 l2 : list string) :
  matchingLabelsOf o ps rng1 = Return l1 ->
  matchingLabelsOf o ps rng2 = Return l2 ->
  l1 ≡ₚ l2 ->
  (forall c, client o = Some c -> stable_gate c) ->
  outcome_map verdictOf (fst (admitPodSpec o attr ps rng1 w1))
  = outcome_map verdictOf (fst (admitPodSpec o attr ps rng2 w2))
  ∧ (l1 = l2 ->
     fst (admitPodSpec o attr ps rng1 w1) = fst (admitPodSpec o attr ps rng2 w2)).
Proof.
  intros H1 H2 Hp Hst.
  pose proof (Permutation_length Hp) as Hlen.
  destruct (decide (0 < String.length (NodeName ps) ∨ 0 < length l1)) as [Ha|Ha].
  - rewrite (admitPodSpec_auth o attr ps rng1 w1 l1 H1 Ha).
    rewrite (admitPodSpec_auth o attr ps rng2 w2 l2 H2) by (rewrite <- Hlen; done).
    pose proof (checkPodsBindAccess_stable o attr w1 w2 Hst) as Hgate.
    destruct (checkPodsBindAccess o attr w1) as [r1 w1'].
    destruct (checkPodsBindAccess o attr w2) as [r2 w2'].
    simpl in Hgate. subst r2.
    destruct r1 as [[[a|] [e|]]|]; try done.
    destruct (Allowed a); [done|]. split; [done|]. by intros ->.
  - unfold admitPodSpec, bind, lift. rewrite H1, H2.
    rewrite !decide_False; [done | by rewrite <- Hlen | done].
Qed.

(** What [Admit] does with a request does not depend on the world or on the
    iteration order, up to the evaluation of the pod spec. *)
Lemma Admit_shape {ClientState} (o : @podNodeConstraints ClientState)
    (attr : Attributes) :
  (exists res, forall rng (w : World), Admit o attr rng w = (res, w))
  ∨ (exists c ps,
       config o = Some c ∧ getPodSpec attr = Return (ps, None)
       ∧ forall rng (w : World), Admit o attr rng w = admitPodSpec o attr ps rng w).
Proof.
  unfold Admit. case_decide as Hb; [left; by eexists|].
  destruct (shouldAdmitResource_cases (GetResource attr) (GetKind attr))
    as [Hk|[Hk|Hk]]; rewrite Hk; cbn [negb]; try (left; by eexists).
  case_decide; [left; by eexists|]. unfold bind, lift.
  destruct (getPodSpec attr) as [[ps [e|]]|]; try (left; by eexists).
  destruct (config o) as [c|] eqn:Hc; [|destruct Hb; by left].
  right. by exists c, ps.
Qed.

(** C5, as stated, fails on the code.  The same request, the same config and
    a gate that gives the same answer: two calls in a row return denials with
    different reason strings when the runtime iterates the selector in
    different orders. *)
Lemma C5_admit_repeatable_counterexample :
  stable_gate (fakeClient "pods/binding" (Some (reviewResponse false "")))
  ∧ fst (Admit (testPlugin (Some twoLabelConfig)
                  (fakeClient "pods/binding" (Some (reviewResponse false ""))))
               (podAttrs (Pod (mkPodSpec "" twoLabelSelector)) Create)
               range_canonical world0)
    = Return (Some (NewForbidden (podAttrs (Pod (mkPodSpec "" twoLabelSelector)) Create)
                (Errorf "node selection by label(s) [a bogus] is prohibited by policy for your role")))
  ∧ fst (Admit (testPlugin (Some twoLabelConfig)
                  (fakeClient "pods/binding" (Some (reviewResponse false ""))))
               (podAttrs (Pod (mkPodSpec "" twoLabelSelector)) Create)
               range_reversed
               (snd (Admit (testPlugin (Some twoLabelConfig)
                              (fakeClient "pods/binding" (Some (reviewResponse false ""))))
                           (podAttrs (Pod (mkPodSpec "" twoLabelSelector)) Create)
                           range_canonical world0)))
    = Return (Some (NewForbidden (podAttrs (Pod (mkPodSpec "" twoLabelSelector)) Create)
                (Errorf "node selection by label(s) [bogus a] is prohibited by policy for your role"))).
Proof.
  split; [|split; vm_compute; reflexivity].
  intros ns sar s s'. simpl. by case_decide.
Qed.

(** C5, amended.  Two calls in a row with the same request, the same config
    and a stable gate return the same verdict (allow, denial, or the same
    error); they return the same result, reason string included, whenever
    the selector is iterated in the same order in both calls, and whenever
    at most one entry of the blacklist is a key of the selector. *)
Theorem C5_admit_repeatable {ClientState} (o : @podNodeConstraints ClientState)
    (attr : Attributes) rng1 rng2 (w : World) :
  valid_range rng1 -> valid_range rng2 ->
  (forall c, client o = Some c -> stable_gate c) ->
  outcome_map verdictOf (fst (Admit o attr rng1 w))
  = outcome_map verdictOf (fst (Admit o attr rng2 (snd (Admit o attr rng1 w))))
  ∧ ((forall ps, getPodSpec attr = Return (ps, None) ->
                 rng1 (NodeSelector ps) = rng2 (NodeSelector ps)) ->
     fst (Admit o attr rng1 w) = fst (Admit o attr rng2 (snd (Admit o attr rng1 w))))
  ∧ ((forall c ps, config o = Some c -> getPodSpec attr = Return (ps, None) ->
                   (length (filter (fun b => b ∈ dom (NodeSelector ps))
                                   (NodeSelectorLabelBlacklist c)) <= 1)%nat) ->
     fst (Admit o attr rng1 w) = fst (Admit o attr rng2 (snd (Admit o attr rng1 w)))).
Proof.
  intros Hr1 Hr2 Hst.
  destruct (Admit_shape o attr) as [[res Hres]|(c & ps & Hc & Hps & HA)].
  - rewrite !Hres. by simpl.
  - rewrite !HA.
    pose proof (matchingLabelsOf_Return o c ps rng1 Hc Hr1) as H1.
    pose proof (matchingLabelsOf_Return o c ps rng2 Hc Hr2) as H2.
    assert (matchSelector (NodeSelectorLabelBlacklist c) (rng1 (NodeSelector ps))
            ≡ₚ matchSelector (NodeSelectorLabelBlacklist c) (rng2 (NodeSelector ps)))
      as Hp by (by rewrite !matchSelector_perm).
    destruct (admitPodSpec_repeat o attr ps rng1 rng2 w
                (snd (admitPodSpec o attr ps rng1 w)) _ _ H1 H2 Hp Hst) as [Hv Heq].
    split; [done|]. split.
    + intros Hsame. apply Heq. by rewrite (Hsame ps Hps).
    + intros Hone. apply Heq, Permutation_short; [done|].
      rewrite matchSelector_perm by done. by apply Hone.
Qed.

Lemma C5_admit_repeatable_witness :
  outcome_map verdictOf
    (fst (Admit (testPlugin (Some twoLabelConfig)
                   (fakeClient "pods/binding" (Some (reviewResponse false ""))))
                (podAttrs (Pod (mkPodSpec "" twoLabelSelector)) Create)
                range_canonical world0))
  = outcome_map verdictOf
      (fst (Admit (testPlugin (Some twoLabelConfig)
                     (fakeClient "pods/binding" (Some (reviewResponse false ""))))
                  (podAttrs (Pod (mkPodSpec "" twoLabelSelector)) Create)
                  range_reversed
                  (snd (Admit (testPlugin (Some twoLabelConfig)
                                 (fakeClient "pods/binding"
                                    (Some (reviewResponse false ""))))
                              (podAttrs (Pod (mkPodSpec "" twoLabelSelector)) Create)
                              range_canonical world0)))).
Proof.
  refine (proj1 (C5_admit_repeatable
                   (testPlugin (Some twoLabelConfig)
                      (fakeClient "pods/binding" (Some (reviewResponse false ""))))
                   (podAttrs (Pod (mkPodSpec "" twoLabelSelector)) Create)
                   range_canonical range_reversed world0
                   range_canonical_valid range_reversed_valid _)).
  intros c Hc. injection Hc as <-. intros ns sar s s'. simpl. by case_decide.
Defined.

(** ** One query at most *)

(** [Admit] sends at most one query to the authorization service. *)
Lemma Admit_at_most_one_call {ClientState} (o : @podNodeConstraints ClientState)
    (attr : Attributes) rng (w : World) :
  length (calls (snd (Admit o attr rng w))) = length (calls w)
  ∨ length (calls (snd (Admit o attr rng w))) = S (length (calls w)).
Proof.
  destruct (Admit_world o attr rng w) as [->|(ps & _ & ->)]; [by left|].
  destruct (admitPodSpec_world o attr ps rng w)
    as [->|(labels & r & w' & _ & _ & Hc & ->)]; [by left|].
  right. by apply (checkPodsBindAccess_calls o attr w w' r).
Qed.

(** ** The unit tests, run on the model *)

(** [TestPodNodeConstraints], cases 1 to 3: the three denials. *)
Example test_nodeSelector_denied :
  fst (Admit denyPlugin (podAttrs nodeSelectorPod Create) range_canonical world0)
  = Return (Some (NewForbidden (podAttrs nodeSelectorPod Create)
      (Errorf "node selection by label(s) [bogus] is prohibited by policy for your role"))).
Proof. vm_compute. reflexivity. Qed.

Example test_nodeName_denied :
  fst (Admit denyPlugin (podAttrs nodeNamePod Create) range_canonical world0)
  = Return (Some (NewForbidden (podAttrs nodeNamePod Create)
      (Errorf "node selection by nodeName is prohibited by policy for your role"))).
Proof. vm_compute. reflexivity. Qed.

Example test_nodeName_nodeSelector_denied :
  fst (Admit denyPlugin (podAttrs nodeNameNodeSelectorPod Create) range_canonical world0)
  = Return (Some (NewForbidden (podAttrs nodeNameNodeSelectorPod Create)
      (Errorf "node selection by nodeName and label(s) [bogus] is prohibited by policy for your role"))).
Proof. vm_compute. reflexivity. Qed.

(** Cases 4 and 5: the gate allows. *)
Example test_allowed :
  fst (Admit (testPlugin (Some testConfig)
                (fakeClient "pods/binding" (Some (reviewResponse true ""))))
             (podAttrs nodeSelectorPod Create) range_canonical world0)
  = Return None
  ∧ fst (Admit (testPlugin (Some testConfig)
                  (fakeClient "pods/binding" (Some (reviewResponse true ""))))
               (podAttrs nodeNamePod Create) range_canonical world0)
    = Return None.
Proof. split; vm_compute; reflexivity. Qed.

(** [TestPodNodeConstraintsResources]: the deployment with a blacklisted
    selector is denied on Create and on Update. *)
Example test_deployment_denied :
  outcome_map decisionOf
      (fst (Admit denyPlugin (deploymentAttrs Create) range_canonical world0))
    = Return (Deny (Errorf "node selection by label(s) [bogus] is prohibited by policy for your role"))
  ∧ outcome_map decisionOf
      (fst (Admit denyPlugin (deploymentAttrs Update) range_canonical world0))
    = Return (Deny (Errorf "node selection by label(s) [bogus] is prohibited by policy for your role")).
Proof. repeat split; vm_compute; reflexivity. Qed.

(** A replication controller without a template: the dereference panics. *)
Example test_nil_template_panics :
  Admit denyPlugin
        (mkAttributes (ReplicationController None) (kapi_Kind "ReplicationController")
           "default" "test" (kapi_Resource "replicationcontrollers") "" Create
           (Some testUser))
        range_canonical world0
  = (Panic, world0).
Proof. vm_compute. reflexivity. Qed.

(** * Further properties of the code *)

(** ** The table of resources *)

Lemma map_index_Some (m : list (GroupResource * GroupKind)) (r : GroupResource)
    (k : GroupKind) :
  NoDup m.*1 -> (map_index m r = Some k ↔ (r, k) ∈ m).
Proof.
  induction m as [|[r' k'] m IH]; simpl; intros Hnd.
  - split; [done | intros H; by apply elem_of_nil in H].
  - apply NoDup_cons in Hnd as [Hr' Hnd]. rewrite elem_of_cons.
    destruct (decide (r' = r)) as [->|Hne].
    + split.
      * intros [= ->]. by left.
      * intros [[= ->]|Hin]; [done|]. destruct Hr'.
        apply list_elem_of_fmap. by exists (r, k).
    + rewrite (IH Hnd). split; [by right|]. intros [[= -> ->]|?]; done.
Qed.

Lemma resourcesToAdmit_NoDup : NoDup resourcesToAdmit.*1.
Proof. apply (bool_decide_unpack _). vm_compute. reflexivity. Qed.

(** X1. The keys of [resourcesToAdmit] are distinct, and the classifier
    answers: yes exactly for the six pairs of the table; no, without an
    error, exactly for a resource that is not in the table; and with an error
    exactly for a resource of the table declared with another kind. *)
Theorem shouldAdmitResource_table (r : GroupResource) (k : GroupKind) :
  NoDup resourcesToAdmit.*1
  ∧ (shouldAdmitResource r k = (true, None) ↔ (r, k) ∈ resourcesToAdmit)
  ∧ (shouldAdmitResource r k = (false, None) ↔ r ∉ resourcesToAdmit.*1)
  ∧ (shouldAdmitResource r k = (false, Some (ErrUnexpectedKind k r))
     ↔ r ∈ resourcesToAdmit.*1 ∧ (r, k) ∉ resourcesToAdmit).
Proof.
  pose proof resourcesToAdmit_NoDup as Hnd.
  pose proof (map_index_Some resourcesToAdmit r k Hnd) as HS.
  pose proof (map_index_None resourcesToAdmit r) as HN.
  split; [done|]. unfold shouldAdmitResource.
  destruct (map_index resourcesToAdmit r) as [expected|] eqn:Hi.
  - assert (r ∈ resourcesToAdmit.*1) as Hin.
    { destruct (decide (r ∈ resourcesToAdmit.*1)) as [|Hn]; [done|].
      apply HN in Hn. congruence. }
    case_decide as Hk.
    + subst expected. split; [|split].
      * split; [intros _; by apply HS | done].
      * split; [done | intros ?; contradiction].
      * split; [done | intros [_ Hn]; destruct Hn; by apply HS].
    + split; [|split].
      * split; [done | intros Hin'; apply HS in Hin'; congruence].
      * split; [done | intros ?; contradiction].
      * split; [|done]. intros _. split; [done|].
        intros Hin'. apply HS in Hin'. congruence.
  - assert (r ∉ resourcesToAdmit.*1) as Hn by (by apply HN).
    split; [|split].
    + split; [done | intros Hin; apply HS in Hin; congruence].
    + split; done.
    + split; [done | intros [Hin _]; contradiction].
Qed.

(** ** The shape of a call to [Admit] *)

Lemma getPodSpec_cases (attr : Attributes) :
  getPodSpec attr = Panic
  ∨ (exists ps, getPodSpec attr = Return (ps, None))
  ∨ getPodSpec attr
    = Return (emptyPodSpec,
              Some (NewInternalError
                      (Errorf "No PodSpec available for supplied admission attribute"))).
Proof.
  unfold getPodSpec, deref_Template.
  destruct (GetObject attr) as [ps|[ps|]|ps|[ps|]|ps|[ps|]|k|]; eauto.
Qed.

(** Outside the evaluation of a pod spec, [Admit] has four results, none of
    which touches the world. *)
Lemma Admit_cases {ClientState} (o : @podNodeConstraints ClientState)
    (attr : Attributes) rng (w : World) :
  Admit o attr rng w = (Return None, w)
  ∨ Admit o attr rng w
    = (Return (Some (ErrUnexpectedKind (GetKind attr) (GetResource attr))), w)
  ∨ Admit o attr rng w
    = (Return (Some (NewInternalError
                       (Errorf "No PodSpec available for supplied admission attribute"))), w)
  ∨ (getPodSpec attr = Panic ∧ Admit o attr rng w = (Panic, w))
  ∨ (exists c ps,
       config o = Some c ∧ getPodSpec attr = Return (ps, None)
       ∧ Admit o attr rng w = admitPodSpec o attr ps rng w).
Proof.
  unfold Admit. case_decide as Hb; [by left|].
  destruct (shouldAdmitResource_cases (GetResource attr) (GetKind attr))
    as [Hk|[Hk|Hk]]; rewrite Hk; cbn [negb]; [by left| |by right; left].
  case_decide; [by left|]. unfold bind, lift.
  destruct (getPodSpec_cases attr) as [Hp|[[ps Hp]|Hp]]; rewrite Hp.
  - right; right; right; left. done.
  - destruct (config o) as [c|] eqn:Hc; [|destruct Hb; by left].
    right; right; right; right. by exists c, ps.
  - right; right; left. done.
Qed.

Lemma checkPodsBindAccess_Return {ClientState} (o : @podNodeConstraints ClientState)
    (attr : Attributes) (w w' : World)
    (r : option SubjectAccessReviewResponse * option error) :
  checkPodsBindAccess o attr w = (Return r, w') ->
  exists u c s,
    GetUserInfo attr = Some u ∧ client o = Some c
    ∧ LocalSubjectAccessReviews_Create c (GetNamespace attr)
        (call_sar (bindAccessCall attr u)) (client_state w) = (r, s)
    ∧ w' = {| client_state := s; calls := (calls w ++ [bindAccessCall attr u])%list |}.
Proof.
  unfold checkPodsBindAccess, bindAccessCall. intros H.
  destruct (GetUserInfo attr) as [u|]; [|done]. destruct (client o) as [c|]; [|done].
  cbn [call_sar].
  destruct (LocalSubjectAccessReviews_Create _ _ _ _) as [r' s] eqn:Hc.
  injection H as <- <-. by exists u, c, s.
Qed.

(** The result of [admitPodSpec] is fixed by the labels, the gate's answer
    and the case table. *)
Lemma admitPodSpec_cases {ClientState} (o : @podNodeConstraints ClientState)
    (attr : Attributes) (ps : PodSpec) rng (w : World) (labels : list string) :
  matchingLabelsOf o ps rng = Return labels ->
  (¬ (0 < String.length (NodeName ps) ∨ 0 < length labels)
   ∧ admitPodSpec o attr ps rng w = (Return None, w))
  ∨ ((0 < String.length (NodeName ps) ∨ 0 < length labels)
     ∧ admitPodSpec o attr ps rng w =
       match checkPodsBindAccess o attr w with
       | (Return (_, Some e), w') => (Return (Some e), w')
       | (Return (Some a, None), w') =>
           if Allowed a then (Return None, w')
           else (Return (Some (NewForbidden attr (Errorf (denialReason ps labels)))), w')
       | (Return (None, None), w') => (Return None, w')
       | (Panic, w') => (Panic, w')
       end).
Proof.
  intros Hl.
  destruct (decide (0 < String.length (NodeName ps) ∨ 0 < length labels)) as [Ha|Ha].
  - right. split; [done|]. by apply admitPodSpec_auth.
  - left. split; [done|]. unfold admitPodSpec, bind, lift. rewrite Hl.
    by rewrite decide_False.
Qed.

(** ** What the log of calls tells *)

(** X2. [Admit] either leaves the world as it was, or it has sent exactly
    one query, appended to the log: create on pods/binding for the name and
    in the namespace of the request, for the name and the groups of its
    user; the state of the service is then the one this query left. *)
Theorem Admit_sends_one_bind_query {ClientState} (o : @podNodeConstraints ClientState)
    (attr : Attributes) rng (w : World) :
  snd (Admit o attr rng w) = w
  ∨ exists u c r s,
      GetUserInfo attr = Some u ∧ client o = Some c
      ∧ LocalSubjectAccessReviews_Create c (GetNamespace attr)
          {| Action := {| Verb := "create"; Resource := "pods/binding";
                          ResourceName := GetName attr |};
             User := ui_Name u;
             Groups := sets_NewString (ui_Groups u) |} (client_state w) = (r, s)
      ∧ snd (Admit o attr rng w)
        = {| client_state := s; calls := (calls w ++ [bindAccessCall attr u])%list |}.
Proof.
  destruct (Admit_world o attr rng w) as [Hw|(ps & _ & ->)]; [by left|].
  destruct (admitPodSpec_world o attr ps rng w)
    as [Hw|(labels & r & w' & _ & _ & Hc & ->)]; [by left|].
  right. apply checkPodsBindAccess_Return in Hc as (u & c & s & Hu & Hcl & Hcr & ->).
  by exists u, c, r, s.
Qed.

(** X3. Without a query to the gate [Admit] never denies: an error returned
    while the log of calls is unchanged is the unexpected-kind error of the
    classifier or the internal error of the extractor. *)
Theorem Admit_no_query_no_denial {ClientState} (o : @podNodeConstraints ClientState)
    (attr : Attributes) rng (w : World) (e : error) :
  fst (Admit o attr rng w) = Return (Some e) ->
  calls (snd (Admit o attr rng w)) = calls w ->
  (e = ErrUnexpectedKind (GetKind attr) (GetResource attr)
   ∨ e = NewInternalError
           (Errorf "No PodSpec available for supplied admission attribute"))
  ∧ is_forbidden e = false.
Proof.
  intros He Hcalls.
  enough (e = ErrUnexpectedKind (GetKind attr) (GetResource attr)
          ∨ e = NewInternalError
                  (Errorf "No PodSpec available for supplied admission attribute")) as H
    by (split; [done | by destruct H as [-> | ->]]).
  destruct (Admit_cases o attr rng w)
    as [H|[H|[H|[[_ H]|(c & ps & Hc & Hps & H)]]]]; rewrite H in He, Hcalls;
    simpl in He; try congruence; [left; congruence | right; congruence |].
  destruct (matchingLabelsOf o ps rng) as [labels|] eqn:Hl.
  - destruct (admitPodSpec_cases o attr ps rng w labels Hl) as [[_ H']|[_ H']];
      rewrite H' in He, Hcalls; [simpl in He; congruence|].
    destruct (checkPodsBindAccess o attr w) as [[r|] w'] eqn:Hg;
      [|simpl in He; congruence].
    apply checkPodsBindAccess_calls in Hg.
    assert (calls w' = calls w) as Heq.
    { destruct r as [[a|] [e'|]]; try done. by destruct (Allowed a). }
    rewrite Heq in Hg. lia.
  - unfold admitPodSpec, bind, lift in He. by rewrite Hl in He.
Qed.

Lemma Admit_no_query_no_denial_witness :
  (ErrUnexpectedKind (kapi_Kind "ResourceQuota") (kapi_Resource "pods")
   = ErrUnexpectedKind (kapi_Kind "ResourceQuota") (kapi_Resource "pods")
   ∨ ErrUnexpectedKind (kapi_Kind "ResourceQuota") (kapi_Resource "pods")
     = NewInternalError
         (Errorf "No PodSpec available for supplied admission attribute"))
  ∧ is_forbidden (ErrUnexpectedKind (kapi_Kind "ResourceQuota") (kapi_Resource "pods"))
    = false.
Proof.
  apply (Admit_no_query_no_denial denyPlugin
           (mkAttributes defaultPod (kapi_Kind "ResourceQuota") "default" "test"
              (kapi_Resource "pods") "" Create (Some testUser))
           range_canonical world0); vm_compute; reflexivity.
Defined.

(** ** Panics *)

(** X4. A plugin that passes [Validate] does not panic on a request that has
    a user and whose object, if it holds its template through a pointer, has
    a template. *)
Theorem Admit_validated_no_panic {ClientState} (o : @podNodeConstraints ClientState)
    (attr : Attributes) rng (w : World) :
  Validate o = None ->
  GetUserInfo attr ≠ None ->
  getPodSpec attr ≠ Panic ->
  fst (Admit o attr rng w) ≠ Panic.
Proof.
  unfold Validate. intros Hv Hu Hp.
  destruct (client o) as [cl|] eqn:Hcl; [|done].
  destruct (GetUserInfo attr) as [u|] eqn:Hui; [|done].
  destruct (Admit_cases o attr rng w)
    as [H|[H|[H|[[H' _]|(c & ps & Hc & Hps & H)]]]]; rewrite ?H; try done.
  assert (exists labels, matchingLabelsOf o ps rng = Return labels) as [labels Hl].
  { unfold matchingLabelsOf. rewrite Hc. case_decide; eauto. }
  destruct (admitPodSpec_cases o attr ps rng w labels Hl) as [[_ ->]|[_ ->]]; [done|].
  unfold checkPodsBindAccess. rewrite Hui, Hcl.
  destruct (LocalSubjectAccessReviews_Create _ _ _ _) as [[[a|] [e|]] s]; try done.
  by destruct (Allowed a).
Qed.

Lemma Admit_validated_no_panic_witness :
  fst (Admit denyPlugin (podAttrs nodeNameNodeSelectorPod Create) range_canonical world0)
  ≠ Panic.
Proof.
  apply Admit_validated_no_panic; [reflexivity | discriminate | discriminate].
Defined.

(** X5. A request that needs authorization panics, before any query is sent,
    when the plugin has no client (it would not pass [Validate]) or the
    request has no user. *)
Theorem Admit_no_client_or_user_panics {ClientState}
    (o : @podNodeConstraints ClientState) (attr : Attributes) rng (w : World)
    (ps : PodSpec) (labels : list string) :
  config o ≠ None -> GetSubresource attr = "" ->
  shouldAdmitResource (GetResource attr) (GetKind attr) = (true, None) ->
  ¬ (GetResource attr = kapi_Resource "pods" ∧ GetOperation attr ≠ Create) ->
  getPodSpec attr = Return (ps, None) ->
  matchingLabelsOf o ps rng = Return labels ->
  NodeName ps ≠ "" ∨ labels ≠ [] ->
  Validate o ≠ None ∨ GetUserInfo attr = None ->
  Admit o attr rng w = (Panic, w).
Proof.
  intros Hc Hs Hk Hop Hps Hl Hreq Hno.
  rewrite Admit_evaluated, Hps by done.
  rewrite (admitPodSpec_auth o attr ps rng w labels Hl).
  - unfold checkPodsBindAccess. unfold Validate in Hno.
    destruct (GetUserInfo attr) as [u|]; [|done].
    destruct (client o); [|done]. by destruct Hno.
  - destruct Hreq as [H|H]; [left; by apply string_length_pos
                            | right; by apply list_length_pos].
Qed.

(** The plugin as [NewPodNodeConstraints] makes it, before a client is set. *)
Lemma Admit_no_client_or_user_panics_witness :
  Admit (NewPodNodeConstraints (ClientState := unit) (Some testConfig))
        (podAttrs nodeNamePod Create) range_canonical world0
  = (Panic, world0).
Proof.
  apply (Admit_no_client_or_user_panics
           (NewPodNodeConstraints (ClientState := unit) (Some testConfig))
           (podAttrs nodeNamePod Create) range_canonical world0
           (mkPodSpec "frank" ∅) []);
    try reflexivity; try discriminate.
  - intros [_ H]. by apply H.
  - left. discriminate.
  - left. discriminate.
Defined.

(** ** A gate that always allows *)

(** X6. With a client whose every answer is an allowing response without
    error, [Admit] never denies: the only errors left are those of the
    classifier and of the extractor. *)
Theorem Admit_allowing_gate_never_denies {ClientState}
    (o : @podNodeConstraints ClientState) (c : client_Interface)
    (attr : Attributes) rng (w : World) (e : error) :
  client o = Some c ->
  (forall ns sar s,
     exists resp, fst (LocalSubjectAccessReviews_Create c ns sar s) = (Some resp, None)
                  ∧ Allowed resp = true) ->
  fst (Admit o attr rng w) = Return (Some e) ->
  e = ErrUnexpectedKind (GetKind attr) (GetResource attr)
  ∨ e = NewInternalError (Errorf "No PodSpec available for supplied admission attribute").
Proof.
  intros Hcl Hallow He.
  destruct (Admit_cases o attr rng w)
    as [H|[H|[H|[[_ H]|(cfg & ps & Hc & Hps & H)]]]]; rewrite H in He;
    simpl in He; try congruence; [left; congruence | right; congruence |].
  exfalso.
  destruct (matchingLabelsOf o ps rng) as [labels|] eqn:Hl.
  - destruct (admitPodSpec_cases o attr ps rng w labels Hl) as [[_ H']|[_ H']];
      rewrite H' in He; [simpl in He; congruence|].
    destruct (checkPodsBindAccess o attr w) as [[r|] w'] eqn:Hg;
      [|simpl in He; congruence].
    apply checkPodsBindAccess_Return in Hg as (u & c' & s & _ & Hcl' & Hcr & _).
    assert (c' = c) as -> by congruence.
    destruct (Hallow (GetNamespace attr) (call_sar (bindAccessCall attr u))
                (client_state w)) as (resp & Hresp & Hyes).
    rewrite Hcr in Hresp. simpl in Hresp. subst r. by rewrite Hyes in He.
  - unfold admitPodSpec, bind, lift in He. by rewrite Hl in He.
Qed.

Lemma Admit_allowing_gate_never_denies_witness :
  ErrUnexpectedKind (kapi_Kind "ResourceQuota") (kapi_Resource "pods")
  = ErrUnexpectedKind (kapi_Kind "ResourceQuota") (kapi_Resource "pods")
  ∨ ErrUnexpectedKind (kapi_Kind "ResourceQuota") (kapi_Resource "pods")
    = NewInternalError (Errorf "No PodSpec available for supplied admission attribute").
Proof.
  apply (Admit_allowing_gate_never_denies
           (testPlugin (Some testConfig) (mkClient (fun _ _ s => ((Some (reviewResponse true ""), None), s))))
           (mkClient (fun _ _ s => ((Some (reviewResponse true ""), None), s)))
           (mkAttributes nodeNamePod (kapi_Kind "ResourceQuota") "default" "test"
              (kapi_Resource "pods") "" Create (Some testUser))
           range_canonical world0).
  - reflexivity.
  - intros ns sar s. exists (reviewResponse true ""). split; reflexivity.
  - vm_compute. reflexivity.
Defined.

(** ** Growing the blacklist *)

Lemma checkPodsBindAccess_same_client {ClientState}
    (o1 o2 : @podNodeConstraints ClientState) (attr : Attributes) (w : World) :
  client o1 = client o2 ->
  checkPodsBindAccess o1 attr w = checkPodsBindAccess o2 attr w.
Proof. intros Hcl. unfold checkPodsBindAccess. by rewrite Hcl. Qed.

(** With a config, what [Admit] does before it evaluates the pod spec depends
    on the request alone. *)
Lemma Admit_with_config {ClientState} (attr : Attributes) :
  (exists res, forall (o : @podNodeConstraints ClientState) rng (w : World),
      config o ≠ None -> Admit o attr rng w = (res, w))
  ∨ (exists ps,
       getPodSpec attr = Return (ps, None)
       ∧ forall (o : @podNodeConstraints ClientState) rng (w : World),
           config o ≠ None -> Admit o attr rng w = admitPodSpec o attr ps rng w).
Proof.
  unfold Admit.
  destruct (decide (GetSubresource attr = "")) as [Hs|Hs].
  - assert (forall (o : @podNodeConstraints ClientState),
              config o ≠ None -> ¬ (config o = None ∨ GetSubresource attr ≠ ""))
      as Hnb by (intros o Hc [?|?]; done).
    destruct (shouldAdmitResource_cases (GetResource attr) (GetKind attr))
      as [Hk|[Hk|Hk]]; rewrite Hk; cbn [negb].
    + left. exists (Return None). intros o rng w Hc. by rewrite decide_False by auto.
    + destruct (decide (GetResource attr = kapi_Resource "pods"
                        ∧ GetOperation attr ≠ Create)).
      * left. exists (Return None). intros o rng w Hc. by rewrite decide_False by auto.
      * unfold bind, lift.
        destruct (getPodSpec attr) as [[ps [e|]]|].
        -- left. exists (Return (Some e)). intros o rng w Hc.
           by rewrite decide_False by auto.
        -- right. exists ps. split; [done|]. intros o rng w Hc.
           by rewrite decide_False by auto.
        -- left. exists Panic. intros o rng w Hc. by rewrite decide_False by auto.
    + left. exists (Return (Some (ErrUnexpectedKind (GetKind attr) (GetResource attr)))).
      intros o rng w Hc. by rewrite decide_False by auto.
  - left. exists (Return None). intros o rng w Hc. rewrite decide_True; [done | by right].
Qed.

Lemma matchSelector_nonempty_mono (bl1 bl2 : list string) (sel : gmap string string)
    rng1 rng2 :
  valid_range rng1 -> valid_range rng2 -> bl1 ⊆ bl2 ->
  0 < length (matchSelector bl1 (rng1 sel)) ->
  0 < length (matchSelector bl2 (rng2 sel)).
Proof.
  intros Hr1 Hr2 Hsub Hlen.
  destruct (matchSelector bl1 (rng1 sel)) as [|x l] eqn:Hm; [simpl in Hlen; lia|].
  assert (x ∈ matchSelector bl1 (rng1 sel)) as Hx by (rewrite Hm; apply elem_of_cons; by left).
  apply elem_of_matchSelector in Hx as [Hb Hk]. rewrite (Hr1 sel) in Hk.
  assert (x ∈ matchSelector bl2 (rng2 sel)) as Hx2.
  { apply elem_of_matchSelector. split; [by apply Hsub | by rewrite (Hr2 sel)]. }
  destruct (matchSelector bl2 (rng2 sel)); [by apply elem_of_nil in Hx2 | simpl; lia].
Qed.

(** X7. Two plugins with the same client, the blacklist of the first
    included in the blacklist of the second: a request for which the second
    sends no query to the gate gets none from the first either.  Removing
    labels from the blacklist never adds an authorization check. *)
Theorem Admit_blacklist_monotone {ClientState}
    (o1 o2 : @podNodeConstraints ClientState) (c1 c2 : PodNodeConstraintsConfig)
    (attr : Attributes) rng1 rng2 (w : World) :
  config o1 = Some c1 -> config o2 = Some c2 -> client o1 = client o2 ->
  valid_range rng1 -> valid_range rng2 ->
  NodeSelectorLabelBlacklist c1 ⊆ NodeSelectorLabelBlacklist c2 ->
  snd (Admit o2 attr rng2 w) = w ->
  snd (Admit o1 attr rng1 w) = w.
Proof.
  intros Hc1 Hc2 Hcl Hr1 Hr2 Hsub H2.
  destruct (Admit_with_config (ClientState := ClientState) attr)
    as [[res H]|(ps & Hps & H)].
  - rewrite H by congruence. done.
  - rewrite H in H2 |- * by congruence.
    pose proof (matchingLabelsOf_Return o1 c1 ps rng1 Hc1 Hr1) as Hl1.
    pose proof (matchingLabelsOf_Return o2 c2 ps rng2 Hc2 Hr2) as Hl2.
    destruct (admitPodSpec_cases o1 attr ps rng1 w _ Hl1) as [[_ ->]|[Ha1 ->]]; [done|].
    assert (0 < String.length (NodeName ps)
            ∨ 0 < length (matchSelector (NodeSelectorLabelBlacklist c2)
                            (rng2 (NodeSelector ps)))) as Ha2.
    { destruct Ha1 as [?|Ha1]; [by left|right].
      by apply (matchSelector_nonempty_mono _ _ _ rng1 rng2 Hr1 Hr2 Hsub). }
    rewrite (admitPodSpec_auth o2 attr ps rng2 w _ Hl2 Ha2) in H2.
    rewrite (checkPodsBindAccess_same_client o1 o2 attr w Hcl).
    destruct (checkPodsBindAccess o2 attr w) as [[r|] w'] eqn:Hg; [|done].
    exfalso. apply checkPodsBindAccess_calls in Hg.
    assert (w' = w) as ->.
    { destruct r as [[a|] [e|]]; try done. by destruct (Allowed a). }
    lia.
Qed.

(** The test config against the config that blacklists one label more, on a
    pod whose selector names neither. *)
Lemma Admit_blacklist_monotone_witness :
  snd (Admit denyPlugin (podAttrs (Pod (mkPodSpec "" {["region" := "east"]})) Create)
         range_canonical world0)
  = world0.
Proof.
  apply (Admit_blacklist_monotone denyPlugin
           (testPlugin (Some twoLabelConfig)
              (fakeClient "pods/binding" (Some (reviewResponse false ""))))
           testConfig twoLabelConfig
           (podAttrs (Pod (mkPodSpec "" {["region" := "east"]})) Create)
           range_canonical range_reversed world0);
    try reflexivity.
  - apply range_canonical_valid.
  - apply range_reversed_valid.
  - intros x Hx. apply list_elem_of_singleton in Hx as ->.
    apply elem_of_cons. by left.
Defined.

(** ** Keys, not values *)

(** X8. Only the keys of the selector count.  Two pod specs with the same
    node name and selectors with the same keys, whatever the values and the
    iteration orders, get the same verdict and the same query to the gate. *)
Theorem admitPodSpec_label_values_irrelevant {ClientState}
    (o : @podNodeConstraints ClientState) (attr : Attributes) (ps1 ps2 : PodSpec)
    rng1 rng2 (w : World) :
  config o ≠ None ->
  valid_range rng1 -> valid_range rng2 ->
  NodeName ps1 = NodeName ps2 ->
  dom (NodeSelector ps1) = dom (NodeSelector ps2) ->
  outcome_map verdictOf (fst (admitPodSpec o attr ps1 rng1 w))
  = outcome_map verdictOf (fst (admitPodSpec o attr ps2 rng2 w))
  ∧ snd (admitPodSpec o attr ps1 rng1 w) = snd (admitPodSpec o attr ps2 rng2 w).
Proof.
  intros Hc Hr1 Hr2 Hn Hd.
  destruct (config o) as [c|] eqn:Ec; [clear Hc|done].
  pose proof (matchingLabelsOf_Return o c ps1 rng1 Ec Hr1) as Hl1.
  pose proof (matchingLabelsOf_Return o c ps2 rng2 Ec Hr2) as Hl2.
  assert (length (matchSelector (NodeSelectorLabelBlacklist c) (rng1 (NodeSelector ps1)))
          = length (matchSelector (NodeSelectorLabelBlacklist c) (rng2 (NodeSelector ps2))))
    as Hlen.
  { apply Permutation_length. rewrite !matchSelector_perm by done. by rewrite Hd. }
  destruct (admitPodSpec_cases o attr ps1 rng1 w _ Hl1) as [[Ha1 ->]|[Ha1 ->]];
    destruct (admitPodSpec_cases o attr ps2 rng2 w _ Hl2) as [[Ha2 ->]|[Ha2 ->]].
  - done.
  - destruct Ha1. by rewrite Hn, Hlen.
  - destruct Ha2. by rewrite <- Hn, <- Hlen.
  - destruct (checkPodsBindAccess o attr w) as [[[[a|] [e|]]|] w']; try done.
    by destruct (Allowed a).
Qed.

Lemma admitPodSpec_label_values_irrelevant_witness :
  outcome_map verdictOf
    (fst (admitPodSpec denyPlugin (podAttrs nodeSelectorPod Create)
            (mkPodSpec "" {["bogus" := "frank"]}) range_canonical world0))
  = outcome_map verdictOf
      (fst (admitPodSpec denyPlugin (podAttrs nodeSelectorPod Create)
              (mkPodSpec "" {["bogus" := "joe"]}) range_reversed world0)).
Proof.
  refine (proj1 (admitPodSpec_label_values_irrelevant denyPlugin
                   (podAttrs nodeSelectorPod Create)
                   (mkPodSpec "" {["bogus" := "frank"]}) (mkPodSpec "" {["bogus" := "joe"]})
                   range_canonical range_reversed world0 _
                   range_canonical_valid range_reversed_valid eq_refl _)).
  - discriminate.
  - cbn [NodeSelector]. by rewrite !dom_singleton_L.
Defined.

(** ** Reading the configuration *)

(** X9. [readConfig] returns an error only for a reader it has handed to
    [ReadYAML], and then without a config: the error is the one [ReadYAML]
    returned, or, when [ReadYAML] decoded an object that is not a
    [PodNodeConstraintsConfig], the unexpected-object error. *)
Theorem readConfig_error_iff (ReadYAML : Reader -> option ConfigObject * option error)
    (reader : Reader) (cfg : option PodNodeConstraintsConfig) (e : error) :
  readConfig ReadYAML reader = Return (cfg, Some e)
  ↔ (exists content, reader = PointerReader content)
    ∧ cfg = None
    ∧ (snd (ReadYAML reader) = Some e
       ∨ (snd (ReadYAML reader) = None
          ∧ exists v, fst (ReadYAML reader) = Some (OtherConfigObject v)
                      ∧ e = Errorf ("unexpected config object: " ++ v))).
Proof.
  unfold readConfig. split.
  - destruct reader as [| |s|s]; try done.
    destruct (ReadYAML (PointerReader s)) as [obj [e'|]]; simpl.
    + intros [= <- <-]. split; [by exists s|]. split; [done | by left].
    + destruct obj as [[c|v]|]; try done.
      intros [= <- <-]. split; [by exists s|]. split; [done|].
      right. split; [done|]. by exists v.
  - intros [[s ->] [-> H]].
    destruct (ReadYAML (PointerReader s)) as [obj [e'|]]; simpl in H.
    + destruct H as [[= ->]|[? _]]; done.
    + destruct H as [?|[_ (v & -> & ->)]]; done.
Qed.

(** X10. Without a configuration the plugin is disabled.  A nil reader, of
    either kind, gives a nil config without error; and whenever [readConfig]
    gives a nil config without error, the registered factory returns a plugin
    that does not pass [Validate] until a client is set, and that, with any
    client, lets every request through without a query to the gate. *)
Theorem factory_without_config_disabled {ClientState}
    (ReadYAML : Reader -> option ConfigObject * option error) (reader : Reader) :
  readConfig ReadYAML NilInterfaceReader = Return (None, None)
  ∧ readConfig ReadYAML NilPointerReader = Return (None, None)
  ∧ (readConfig ReadYAML reader = Return (None, None) ->
     exists p : @podNodeConstraints ClientState,
       RegisterPlugin_factory ReadYAML reader = Return (Some p, None)
       ∧ Validate p ≠ None
       ∧ forall c attr rng (w : World),
           Admit (SetOpenshiftClient p c) attr rng w = (Return None, w)).
Proof.
  split; [done|]. split; [done|]. intros Hr.
  exists (NewPodNodeConstraints None). unfold RegisterPlugin_factory. rewrite Hr.
  split; [done|]. split; [done|]. intros c attr rng w. by apply Admit_nil_config.
Qed.

(** A reader whose document decodes to nothing. *)
Lemma factory_without_config_disabled_witness :
  exists p : @podNodeConstraints unit,
    RegisterPlugin_factory (fun _ => (None, None)) (PointerReader "") = Return (Some p, None)
    ∧ Validate p ≠ None
    ∧ forall c attr rng (w : World),
        Admit (SetOpenshiftClient p c) attr rng w = (Return None, w).
Proof.
  exact (proj2 (proj2 (factory_without_config_disabled (ClientState := unit)
                         (fun _ => (None, None)) (PointerReader ""))) eq_refl).
Defined.

(** ** The other revision *)

Lemma Legacy_admitPodSpec_cases {ClientState} (o : @podNodeConstraints ClientState)
    (attr : Attributes) (ps : PodSpec) rng (w : World) (labels : list string) :
  matchingLabelsOf o ps rng = Return labels ->
  (¬ (0 < String.length (NodeName ps) ∨ 0 < length labels)
   ∧ Legacy.admitPodSpec o attr ps rng w = (Return None, w))
  ∨ ((0 < String.length (NodeName ps) ∨ 0 < length labels)
     ∧ Legacy.admitPodSpec o attr ps rng w =
       match checkPodsBindAccess o attr w with
       | (Return (_, Some e), w') => (Return (Some e), w')
       | (Return (Some a, None), w') =>
           if Allowed a then (Return None, w')
           else (Return (Some (NewForbidden attr
                                 (Errorf (if decide (NodeName ps = "")
                                          then msgLabels labels else msgNodeName)))), w')
       | (Return (None, None), w') => (Return None, w')
       | (Panic, w') => (Panic, w')
       end).
Proof.
  intros Hl. unfold Legacy.admitPodSpec, bind, lift. rewrite Hl.
  case_decide as Ha; [right|left]; (split; [done|]); [|done].
  destruct (checkPodsBindAccess o attr w) as [[[[a|] [e|]]|] w']; try done.
  unfold ret. destruct (Allowed a); [done|].
  pose proof (string_length_pos (NodeName ps)) as Hp.
  pose proof (string_length_0 (NodeName ps)) as Hz.
  repeat case_decide; try done; exfalso; intuition lia.
Qed.

(** X11. In the other revision a denial never carries the reason for
    nodeName and labels together: when the gate refuses, the reason is the
    nodeName one as soon as the pod names its node, matched labels or not,
    and the labels one otherwise. *)
Theorem Legacy_denial_reason {ClientState} (o : @podNodeConstraints ClientState)
    (attr : Attributes) (ps : PodSpec) rng (w w' : World)
    (labels : list string) (resp : SubjectAccessReviewResponse) :
  matchingLabelsOf o ps rng = Return labels ->
  NodeName ps ≠ "" ∨ labels ≠ [] ->
  checkPodsBindAccess o attr w = (Return (Some resp, None), w') ->
  Allowed resp = false ->
  (NodeName ps ≠ "" ->
   Legacy.admitPodSpec o attr ps rng w
   = (Return (Some (NewForbidden attr
        (Errorf "node selection by nodeName is prohibited by policy for your role"))), w'))
  ∧ (NodeName ps = "" ->
     Legacy.admitPodSpec o attr ps rng w
     = (Return (Some (NewForbidden attr
          (Errorf ("node selection by label(s) " ++ fmt_v labels
                   ++ " is prohibited by policy for your role")))), w')).
Proof.
  intros Hl Hreq Hgate Hno.
  destruct (Legacy_admitPodSpec_cases o attr ps rng w labels Hl) as [[Ha _]|[_ ->]].
  - destruct Ha. destruct Hreq; [left; by apply string_length_pos
                                | right; by apply list_length_pos].
  - rewrite Hgate, Hno. split; intros Hn; [by rewrite decide_False | by rewrite decide_True].
Qed.

(** The pod with node name and blacklisted label, which the revision above
    denies with the reason for both. *)
Lemma Legacy_denial_reason_witness :
  Legacy.admitPodSpec denyPlugin (podAttrs nodeNameNodeSelectorPod Create)
    (mkPodSpec "frank" {["bogus" := "frank"]}) range_canonical world0
  = (Return (Some (NewForbidden (podAttrs nodeNameNodeSelectorPod Create)
       (Errorf "node selection by nodeName is prohibited by policy for your role"))),
     world1).
Proof.
  destruct (Legacy_denial_reason denyPlugin (podAttrs nodeNameNodeSelectorPod Create)
              (mkPodSpec "frank" {["bogus" := "frank"]}) range_canonical
              world0 world1 ["bogus"] (reviewResponse false "")) as [H _].
  - vm_compute. reflexivity.
  - left. discriminate.
  - vm_compute. reflexivity.
  - reflexivity.
  - apply H. discriminate.
Defined.

Lemma elem_of_six_resources (r : GroupResource) :
  r ∈ [ kapi_Resource "pods"; kapi_Resource "replicationcontrollers";
        extensions_Resource "deployments"; extensions_Resource "replicasets";
        extensions_Resource "jobs"; deployapi_Resource "deploymentconfigs" ]
  ↔ r ∈ resourcesToAdmit.*1.
Proof. done. Qed.

(** X12. On a Create whose declared kind the classifier does not reject, the
    two revisions agree: same verdict, same query to the gate, and the very
    same result unless the pod both names its node and matches a label (the
    one case where the reasons differ). *)
Theorem Legacy_agrees_on_Create {ClientState} (o : @podNodeConstraints ClientState)
    (attr : Attributes) rng (w : World) :
  GetOperation attr = Create ->
  snd (shouldAdmitResource (GetResource attr) (GetKind attr)) = None ->
  outcome_map verdictOf (fst (Legacy.Admit o attr rng w))
  = outcome_map verdictOf (fst (Admit o attr rng w))
  ∧ snd (Legacy.Admit o attr rng w) = snd (Admit o attr rng w)
  ∧ ((forall ps labels,
        getPodSpec attr = Return (ps, None) ->
        matchingLabelsOf o ps rng = Return labels ->
        NodeName ps = "" ∨ labels = []) ->
     Legacy.Admit o attr rng w = Admit o attr rng w).
Proof.
  intros Hop Hk. unfold Legacy.Admit, Admit.
  destruct (decide (config o = None ∨ GetSubresource attr ≠ "")) as [Hb|Hb].
  - rewrite decide_True by tauto. done.
  - rewrite decide_False by (intros [?|[?|?]]; [tauto..|done]).
    destruct (shouldAdmitResource_table (GetResource attr) (GetKind attr))
      as (_ & _ & Hnone & _).
    destruct (shouldAdmitResource_cases (GetResource attr) (GetKind attr))
      as [Hc|[Hc|Hc]]; rewrite Hc in Hk |- *; cbn [negb snd] in *; [| |done].
    + rewrite decide_False by (rewrite elem_of_six_resources; by apply Hnone). done.
    + rewrite decide_True.
      2:{ rewrite elem_of_six_resources.
          destruct (decide (GetResource attr ∈ resourcesToAdmit.*1)) as [|Hn]; [done|].
          apply Hnone in Hn. congruence. }
      rewrite decide_False by (intros [_ ?]; done).
      unfold bind, lift.
      destruct (getPodSpec attr) as [[ps [e|]]|]; try done.
      destruct (matchingLabelsOf o ps rng) as [labels|] eqn:Hl.
      * destruct (Legacy_admitPodSpec_cases o attr ps rng w labels Hl) as [[Ha ->]|[Ha ->]];
          destruct (admitPodSpec_cases o attr ps rng w labels Hl) as [[Ha' ->]|[Ha' ->]];
          try done.
        destruct (checkPodsBindAccess o attr w) as [[[[a|] [e|]]|] w']; try done.
        destruct (Allowed a); [done|]. split; [done|]. split; [done|].
        intros Hone. destruct (Hone ps labels eq_refl Hl) as [Hn| ->].
        -- rewrite decide_True by done. unfold denialReason.
           rewrite Hn. rewrite decide_False by (simpl; lia).
           rewrite decide_True; [done|]. split; [done|].
           destruct Ha as [Ha|Ha]; [rewrite Hn in Ha; simpl in Ha; lia | done].
        -- assert (NodeName ps ≠ "") as Hn.
           { destruct Ha as [Ha|Ha]; [by apply string_length_pos | simpl in Ha; lia]. }
           rewrite decide_False by done. unfold denialReason.
           rewrite decide_True; [done|]. split; [by apply string_length_pos | done].
      * unfold Legacy.admitPodSpec, admitPodSpec, bind, lift. rewrite Hl. done.
Qed.

Lemma Legacy_agrees_on_Create_witness :
  outcome_map verdictOf
    (fst (Legacy.Admit denyPlugin (podAttrs nodeNameNodeSelectorPod Create)
            range_canonical world0))
  = outcome_map verdictOf
      (fst (Admit denyPlugin (podAttrs nodeNameNodeSelectorPod Create)
              range_canonical world0)).
Proof.
  exact (proj1 (Legacy_agrees_on_Create denyPlugin
                  (podAttrs nodeNameNodeSelectorPod Create) range_canonical world0
                  eq_refl eq_refl)).
Defined.

(** X13. In the other revision a nil reader gives an empty config, not a nil
    one, so the plugin stays active: a Create of a workload that names its
    node is sent to the gate, where the revision above, given the same
    reader, lets everything through (X10). *)
Theorem Legacy_nil_reader_keeps_plugin_active {ClientState}
    (ReadYAML : Reader -> option ConfigObject * option error) (reader : Reader)
    (cl : @client_Interface ClientState) (attr : Attributes) (ps : PodSpec)
    (u : UserInfo) rng (w : World) :
  reader = NilInterfaceReader ∨ reader = NilPointerReader ->
  GetSubresource attr = "" -> GetOperation attr = Create ->
  GetResource attr ∈ resourcesToAdmit.*1 ->
  getPodSpec attr = Return (ps, None) ->
  NodeName ps ≠ "" ->
  GetUserInfo attr = Some u ->
  exists cfg,
    Legacy.readConfig ReadYAML reader = Return (Some cfg, None)
    ∧ NodeSelectorLabelBlacklist cfg = []
    ∧ calls (snd (Legacy.Admit
                    (SetOpenshiftClient (Legacy.NewPodNodeConstraints (Some cfg)) (Some cl))
                    attr rng w))
      = (calls w ++ [bindAccessCall attr u])%list.
Proof.
  intros Hr Hs Hop Hres Hps Hn Hu. exists (mkConfig []).
  split; [by destruct Hr as [-> | ->]|]. split; [done|].
  set (o := SetOpenshiftClient (Legacy.NewPodNodeConstraints (Some (mkConfig [])))
              (Some cl)).
  unfold Legacy.Admit.
  rewrite decide_False by (intros [?|[?|?]]; done).
  rewrite decide_True by (by apply elem_of_six_resources).
  unfold bind at 1, lift. rewrite Hps.
  assert (exists labels, matchingLabelsOf o ps rng = Return labels) as [labels Hl].
  { unfold matchingLabelsOf. case_decide; simpl; eauto. }
  destruct (Legacy_admitPodSpec_cases o attr ps rng w labels Hl) as [[Ha _]|[_ ->]].
  - destruct Ha. left. by apply string_length_pos.
  - destruct (checkPodsBindAccess o attr w) as [[r|] w'] eqn:Hg.
    + apply checkPodsBindAccess_Return in Hg as (u' & c & s & Hu' & _ & _ & ->).
      assert (u' = u) as -> by congruence.
      destruct r as [[a|] [e|]]; try done. by destruct (Allowed a).
    + exfalso. revert Hg. unfold checkPodsBindAccess. rewrite Hu. cbn [client o SetOpenshiftClient].
      by destruct (LocalSubjectAccessReviews_Create cl _ _ _).
Qed.

Lemma Legacy_nil_reader_keeps_plugin_active_witness :
  exists cfg,
    Legacy.readConfig readTestConfig NilInterfaceReader = Return (Some cfg, None)
    ∧ NodeSelectorLabelBlacklist cfg = []
    ∧ calls (snd (Legacy.Admit
                    (SetOpenshiftClient (Legacy.NewPodNodeConstraints (Some cfg))
                       (Some (fakeClient "pods/binding" (Some (reviewResponse false "")))))
                    (podAttrs nodeNamePod Create) range_canonical world0))
      = (calls world0 ++ [bindAccessCall (podAttrs nodeNamePod Create) testUser])%list.
Proof.
  apply (Legacy_nil_reader_keeps_plugin_active readTestConfig NilInterfaceReader
           (fakeClient "pods/binding" (Some (reviewResponse false "")))
           (podAttrs nodeNamePod Create) (mkPodSpec "frank" ∅) testUser
           range_canonical world0); try reflexivity.
  - by left.
  - apply elem_of_cons. by left.
  - discriminate.
Defined.

(** ** When the gate is asked *)

(** X14. For a plugin with a config that passes [Validate], and a request
    with a user, [Admit] sends a query to the gate exactly when the request
    is evaluated (no subresource, a resource of the table declared with its
    kind, not an operation other than Create on pods, an object with a pod
    spec) and the pod spec names its node or has a blacklisted key in its
    selector. *)
Theorem Admit_queries_gate_iff {ClientState} (o : @podNodeConstraints ClientState)
    (c : PodNodeConstraintsConfig) (attr : Attributes) rng (w : World) :
  config o = Some c -> Validate o = None -> GetUserInfo attr ≠ None ->
  valid_range rng ->
  (calls (snd (Admit o attr rng w)) ≠ calls w
   ↔ GetSubresource attr = ""
     ∧ (GetResource attr, GetKind attr) ∈ resourcesToAdmit
     ∧ ¬ (GetResource attr = kapi_Resource "pods" ∧ GetOperation attr ≠ Create)
     ∧ exists ps,
         getPodSpec attr = Return (ps, None)
         ∧ (NodeName ps ≠ ""
            ∨ exists k, k ∈ dom (NodeSelector ps) ∧ k ∈ NodeSelectorLabelBlacklist c)).
Proof.
  intros Hc Hv Hu Hrng.
  unfold Validate in Hv. destruct (client o) as [cl|] eqn:Hcl; [clear Hv|done].
  destruct (GetUserInfo attr) as [u|] eqn:Hui; [clear Hu|done].
  assert (forall ps,
    calls (snd (admitPodSpec o attr ps rng w)) ≠ calls w
    ↔ (NodeName ps ≠ ""
       ∨ exists k, k ∈ dom (NodeSelector ps) ∧ k ∈ NodeSelectorLabelBlacklist c)) as Hspec.
  { intros ps.
    pose proof (matchingLabelsOf_Return o c ps rng Hc Hrng) as Hl.
    assert ((0 < String.length (NodeName ps)
             ∨ 0 < length (matchSelector (NodeSelectorLabelBlacklist c)
                             (rng (NodeSelector ps))))
            ↔ (NodeName ps ≠ ""
               ∨ exists k, k ∈ dom (NodeSelector ps) ∧ k ∈ NodeSelectorLabelBlacklist c))
      as Hauth.
    { rewrite string_length_pos, list_length_pos. apply or_iff_compat_l. split.
      - intros Hne.
        destruct (matchSelector _ _) as [|x l] eqn:Hm; [done|].
        assert (x ∈ matchSelector (NodeSelectorLabelBlacklist c) (rng (NodeSelector ps)))
          as Hx by (rewrite Hm; apply elem_of_cons; by left).
        apply elem_of_matchSelector in Hx as [Hb Hk].
        rewrite (Hrng (NodeSelector ps)), elem_of_elements in Hk. by exists x.
      - intros (k & Hk & Hb) Hnil.
        assert (k ∈ matchSelector (NodeSelectorLabelBlacklist c) (rng (NodeSelector ps)))
          as Hx.
        { apply elem_of_matchSelector. split; [done|].
          by rewrite (Hrng (NodeSelector ps)), elem_of_elements. }
        rewrite Hnil in Hx. by apply elem_of_nil in Hx. }
    rewrite <- Hauth.
    destruct (admitPodSpec_cases o attr ps rng w _ Hl) as [[Ha ->]|[Ha ->]];
      [split; [done | intros ?; contradiction]|].
    split; [done|]. intros _.
    destruct (checkPodsBindAccess o attr w) as [[r|] w'] eqn:Hg.
    - apply checkPodsBindAccess_calls in Hg.
      assert (snd (match r with
                   | (_, Some e) => (Return (Some e), w')
                   | (Some a, None) =>
                       if Allowed a then (Return None, w')
                       else (Return (Some (NewForbidden attr
                               (Errorf (denialReason ps
                                  (matchSelector (NodeSelectorLabelBlacklist c)
                                     (rng (NodeSelector ps))))))), w')
                   | (None, None) => (Return None, w')
                   end) = w') as ->.
      { destruct r as [[a|] [e|]]; try done. by destruct (Allowed a). }
      intros Heq. rewrite Heq in Hg. lia.
    - exfalso. revert Hg. unfold checkPodsBindAccess. rewrite Hui, Hcl.
      by destruct (LocalSubjectAccessReviews_Create cl _ _ _). }
  destruct (shouldAdmitResource_table (GetResource attr) (GetKind attr))
    as (_ & Htrue & _ & _).
  rewrite <- Htrue. unfold Admit.
  destruct (decide (GetSubresource attr = "")) as [Hs|Hs].
  - rewrite decide_False by (intros [?|?]; congruence).
    destruct (shouldAdmitResource_cases (GetResource attr) (GetKind attr))
      as [Hk|[Hk|Hk]]; rewrite Hk; cbn [negb];
      [split; [done | intros (_ & ? & _); done]
      | | split; [done | intros (_ & ? & _); done]].
    case_decide as Hop; [split; [done | intros (_ & _ & ? & _); done]|].
    unfold bind, lift.
    destruct (getPodSpec attr) as [[ps [e|]]|] eqn:Hps.
    + split; [done | intros (_ & _ & _ & ps' & ? & _); done].
    + rewrite Hspec. split.
      * intros H. repeat split; try done. by exists ps.
      * intros (_ & _ & _ & ps' & [= <-] & H). done.
    + split; [done | intros (_ & _ & _ & ps' & ? & _); done].
  - rewrite decide_True by (by right). split; [done | intros (? & _); done].
Qed.

Lemma Admit_queries_gate_iff_witness :
  calls (snd (Admit denyPlugin (podAttrs nodeSelectorPod Create) range_canonical world0))
  ≠ calls world0.
Proof.
  apply (Admit_queries_gate_iff denyPlugin testConfig (podAttrs nodeSelectorPod Create)
           range_canonical world0 eq_refl eq_refl);
    [discriminate | apply range_canonical_valid |].
  split; [reflexivity|]. split; [apply elem_of_cons; by left|].
  split; [intros [_ H]; by apply H|].
  exists (mkPodSpec "" {["bogus" := "frank"]}). split; [reflexivity|].
  right. exists "bogus". split.
  - cbn [NodeSelector]. rewrite dom_singleton_L. by apply elem_of_singleton.
  - apply elem_of_cons. by left.
Defined.

(** ** The reason of the authorization service *)

(** X15. The plugin reads nothing of a response but [Allowed]: with two
    clients whose answers agree on the error and on [Allowed], whatever the
    [Reason] fields, two plugins with the same config return the same result
    for the same request. *)
Theorem Admit_ignores_response_reason {ClientState}
    (o1 o2 : @podNodeConstraints ClientState) (c1 c2 : client_Interface)
    (attr : Attributes) rng (w : World) :
  config o1 = config o2 ->
  client o1 = Some c1 -> client o2 = Some c2 ->
  (forall ns sar s,
     snd (fst (LocalSubjectAccessReviews_Create c1 ns sar s))
     = snd (fst (LocalSubjectAccessReviews_Create c2 ns sar s))
     ∧ Allowed <$> fst (fst (LocalSubjectAccessReviews_Create c1 ns sar s))
       = Allowed <$> fst (fst (LocalSubjectAccessReviews_Create c2 ns sar s))) ->
  fst (Admit o1 attr rng w) = fst (Admit o2 attr rng w).
Proof.
  intros Hcfg Hc1 Hc2 Hagree.
  destruct (config o1) as [c|] eqn:Ec.
  - destruct (Admit_with_config (ClientState := ClientState) attr)
      as [[res H]|(ps & Hps & H)]; rewrite !H by congruence; [done|].
    assert (matchingLabelsOf o1 ps rng = matchingLabelsOf o2 ps rng) as Hl
      by (unfold matchingLabelsOf; by rewrite <- Hcfg, Ec).
    destruct (matchingLabelsOf o1 ps rng) as [labels|] eqn:Hl1.
    + symmetry in Hl.
      destruct (admitPodSpec_cases o1 attr ps rng w labels Hl1) as [[Ha ->]|[Ha ->]];
        destruct (admitPodSpec_cases o2 attr ps rng w labels Hl) as [[Ha' ->]|[Ha' ->]];
        try done.
      unfold checkPodsBindAccess. rewrite Hc1, Hc2.
      destruct (GetUserInfo attr) as [u|]; [|done].
      specialize (Hagree (GetNamespace attr)
        {| Action := {| Verb := "create"; Resource := "pods/binding";
                        ResourceName := GetName attr |};
           User := ui_Name u; Groups := sets_NewString (ui_Groups u) |}
        (client_state w)).
      destruct (LocalSubjectAccessReviews_Create c1 _ _ _) as [[a1 e1] s1].
      destruct (LocalSubjectAccessReviews_Create c2 _ _ _) as [[a2 e2] s2].
      simpl in Hagree. destruct Hagree as [-> Hal].
      destruct e2; [by destruct a1, a2|].
      destruct a1 as [a1|], a2 as [a2|]; try done.
      simpl in Hal. injection Hal as ->. by destruct (Allowed a2).
    + unfold admitPodSpec, bind, lift. by rewrite Hl1, <- Hl.
  - rewrite !Admit_nil_config by congruence. done.
Qed.

Lemma Admit_ignores_response_reason_witness :
  fst (Admit denyPlugin (podAttrs nodeNamePod Create) range_canonical world0)
  = fst (Admit (testPlugin (Some testConfig)
                  (fakeClient "pods/binding" (Some (reviewResponse false "no bind access"))))
               (podAttrs nodeNamePod Create) range_canonical world0).
Proof.
  apply (Admit_ignores_response_reason denyPlugin
           (testPlugin (Some testConfig)
              (fakeClient "pods/binding" (Some (reviewResponse false "no bind access"))))
           (fakeClient "pods/binding" (Some (reviewResponse false "")))
           (fakeClient "pods/binding" (Some (reviewResponse false "no bind access"))));
    try reflexivity.
  intros ns sar s. cbn. by case_decide.
Defined.
